(** * Snakes and ladders simulator: shallow embedding of src/src/main.rs
    and src/src/dice.rs.

    Conventions of the embedding:
    - [usize] is modelled as [nat] (no wrap-around: the counters of a game
      stay far below 2^64).
    - A Rust [HashMap<usize, usize>] is a [gmap nat nat]; a [HashSet<usize>]
      is a [gset nat].
    - The die source ([Rollable]) is a list of die values consumed from the
      head (for [MockDie] the head is the last element of [queued_results],
      since it pops from the right). An exhausted source panics: [None].
    - [follow_routes] loops for ever on a cyclic route graph; it takes a
      [fuel] argument and running out of fuel ([None]) stands for that
      divergence. *)

From Stdlib Require Import ZArith Lia.
From Corelib Require Import SpecFloat.
From stdpp Require Import base gmap sets list strings pretty.

(* ------------------------------------------------------------------ *)
(** ** dice.rs *)

Definition DIE_SIZE : nat := 6.

(* ------------------------------------------------------------------ *)
(** ** Board (mod boards) *)

Record Board := mkBoard {
  size : nat;
  routes : gmap nat nat  (* Snakes AND Ladders in Source: Destination order *)
}.

(** [BadRouteError::BadRoute(String)] *)
Inductive BadRouteError := BadRoute (msg : string).

Inductive Result (A E : Type) := Ok (a : A) | Err (e : E).
Arguments Ok {A E} a.
Arguments Err {A E} e.

Definition illegal_start_msg (from : nat) : string :=
  "Illegal snake/ladder start position: " +:+ pretty from.
Definition illegal_end_msg (to : nat) : string :=
  "Illegal snake/ladder end position: " +:+ pretty to.
Definition self_loop_msg (from : nat) : string :=
  "Snake or ladder links to itself on square " +:+ pretty from.

(** The validation loop of [Board::new], over the routes in iteration
    order. *)
Fixpoint validate_routes (size : nat) (rs : list (nat * nat))
    : option BadRouteError :=
  match rs with
  | [] => None
  | (from, to) :: rs' =>
      if (from =? 0) || (size <=? from) then
        Some (BadRoute (illegal_start_msg from))
      else if size <? to then
        Some (BadRoute (illegal_end_msg to))
      else if from =? to then
        Some (BadRoute (self_loop_msg from))
      else validate_routes size rs'
  end.

(** [Board::new]. The iteration order of a Rust [HashMap] is unspecified;
    the embedding iterates in [map_to_list] order, and the theorems below
    do not depend on the order. *)
Definition Board_new (size : nat) (routes : gmap nat nat)
    : Result Board BadRouteError :=
  match validate_routes size (map_to_list routes) with
  | Some e => Err e
  | None => Ok (mkBoard size routes)
  end.

(* ------------------------------------------------------------------ *)
(** ** Sim (mod sim) *)

Record Sim := mkSim {
  board : Board;
  position : nat;
  lucky_spaces : gset nat;
  unlucky_spaces : gset nat;
  turn_count : nat;
  roll_count : nat;
  climb_count : nat;
  slide_count : nat;
  climb_distance : nat;
  slide_distance : nat;
  biggest_climb : nat;
  biggest_slide : nat;
  longest_turn : list nat;
  lucky_rolls : nat;
  unlucky_rolls : nat
}.

Record RollResult := mkRollResult {
  die_value : nat;
  rr_climb_distance : nat;
  rr_slide_distance : nat
}.

(** Field updates of [&mut self]. *)
Definition set_position (s : Sim) (p : nat) : Sim :=
  {| board := board s; position := p; lucky_spaces := lucky_spaces s;
     unlucky_spaces := unlucky_spaces s; turn_count := turn_count s;
     roll_count := roll_count s; climb_count := climb_count s;
     slide_count := slide_count s; climb_distance := climb_distance s;
     slide_distance := slide_distance s; biggest_climb := biggest_climb s;
     biggest_slide := biggest_slide s; longest_turn := longest_turn s;
     lucky_rolls := lucky_rolls s; unlucky_rolls := unlucky_rolls s |}.

Definition set_counts (s : Sim) (tc rc cc sc cd sd lr ur : nat) : Sim :=
  {| board := board s; position := position s; lucky_spaces := lucky_spaces s;
     unlucky_spaces := unlucky_spaces s; turn_count := tc;
     roll_count := rc; climb_count := cc;
     slide_count := sc; climb_distance := cd;
     slide_distance := sd; biggest_climb := biggest_climb s;
     biggest_slide := biggest_slide s; longest_turn := longest_turn s;
     lucky_rolls := lr; unlucky_rolls := ur |}.

Definition set_turn_stats (s : Sim) (bc bs : nat) (lt : list nat) : Sim :=
  {| board := board s; position := position s; lucky_spaces := lucky_spaces s;
     unlucky_spaces := unlucky_spaces s; turn_count := turn_count s;
     roll_count := roll_count s; climb_count := climb_count s;
     slide_count := slide_count s; climb_distance := climb_distance s;
     slide_distance := slide_distance s; biggest_climb := bc;
     biggest_slide := bs; longest_turn := lt;
     lucky_rolls := lucky_rolls s; unlucky_rolls := unlucky_rolls s |}.

(** [self.turn_count += 1] *)
Definition incr_turn_count (s : Sim) : Sim :=
  set_counts s (S (turn_count s)) (roll_count s) (climb_count s)
    (slide_count s) (climb_distance s) (slide_distance s)
    (lucky_rolls s) (unlucky_rolls s).

(** [self.roll_count += 1] *)
Definition incr_roll_count (s : Sim) : Sim :=
  set_counts s (turn_count s) (S (roll_count s)) (climb_count s)
    (slide_count s) (climb_distance s) (slide_distance s)
    (lucky_rolls s) (unlucky_rolls s).

(** ladder: [self.climb_count += 1; self.climb_distance += delta] *)
Definition add_climb (s : Sim) (delta : nat) : Sim :=
  set_counts s (turn_count s) (roll_count s) (S (climb_count s))
    (slide_count s) (climb_distance s + delta) (slide_distance s)
    (lucky_rolls s) (unlucky_rolls s).

(** snake: [self.slide_count += 1; self.slide_distance += delta] *)
Definition add_slide (s : Sim) (delta : nat) : Sim :=
  set_counts s (turn_count s) (roll_count s) (climb_count s)
    (S (slide_count s)) (climb_distance s) (slide_distance s + delta)
    (lucky_rolls s) (unlucky_rolls s).

Definition incr_lucky_rolls (s : Sim) : Sim :=
  set_counts s (turn_count s) (roll_count s) (climb_count s)
    (slide_count s) (climb_distance s) (slide_distance s)
    (S (lucky_rolls s)) (unlucky_rolls s).

Definition incr_unlucky_rolls (s : Sim) : Sim :=
  set_counts s (turn_count s) (roll_count s) (climb_count s)
    (slide_count s) (climb_distance s) (slide_distance s)
    (lucky_rolls s) (S (unlucky_rolls s)).

(** [calc_lucky_spaces]: the near-miss loop
    [for delta in [-2, -1, 1, 2]] with its [break]. *)
Definition near_miss_deltas : list Z := [(-2)%Z; (-1)%Z; 1%Z; 2%Z].

Fixpoint near_miss (routes : gmap nat nat) (i : nat) (deltas : list Z) : bool :=
  match deltas with
  | [] => false
  | delta :: deltas' =>
      let other_i := (Z.of_nat i + delta)%Z in
      if (other_i <=? 0)%Z then near_miss routes i deltas'  (* Underflow *)
      else
        let o := Z.to_nat other_i in
        let route_outcome := default o (routes !! o) in
        if route_outcome <? o then true  (* insert and break *)
        else near_miss routes i deltas'
  end.

(** One iteration [i] of the main loop of [calc_lucky_spaces]. *)
Definition calc_step (b : Board) (acc : gset nat * gset nat) (i : nat)
    : gset nat * gset nat :=
  let '(lucky, unlucky) := acc in
  let '(lucky, unlucky) :=
    match Nat.compare (default i (routes b !! i)) i with
    | Gt => ({[i]} ∪ lucky, unlucky)
    | Lt => (lucky, {[i]} ∪ unlucky)
    | Eq => (lucky, unlucky)
    end in
  (if near_miss (routes b) i near_miss_deltas then {[i]} ∪ lucky else lucky,
   unlucky).

Definition calc_lucky_spaces (b : Board) : gset nat * gset nat :=
  let '(lucky, unlucky) :=
    fold_left (calc_step b) (seq 0 (size b)) (∅, ∅) in
  ({[size b]} ∪ lucky, unlucky).

(** [Sim::new] *)
Definition Sim_new (b : Board) : Sim :=
  let '(lucky, unlucky) := calc_lucky_spaces b in
  {| board := b; position := 0; lucky_spaces := lucky;
     unlucky_spaces := unlucky; turn_count := 0; roll_count := 0;
     climb_count := 0; slide_count := 0; climb_distance := 0;
     slide_distance := 0; biggest_climb := 0; biggest_slide := 0;
     longest_turn := []; lucky_rolls := 0; unlucky_rolls := 0 |}.

Definition has_won (s : Sim) : bool := position s =? size (board s).

(** [follow_routes]: the [while let] loop over [new_position]. *)
Fixpoint follow_routes_loop (fuel : nat) (s : Sim) (new_position : nat)
    : option Sim :=
  match fuel with
  | 0 => None
  | S fuel' =>
      match routes (board s) !! new_position with
      | None => Some (set_position s new_position)
      | Some p =>
          let s' := if new_position <? p then add_climb s (p - new_position)
                    else add_slide s (new_position - p) in
          follow_routes_loop fuel' s' p
      end
  end.

Definition follow_routes (fuel : nat) (s : Sim) : option Sim :=
  follow_routes_loop fuel s (position s).

Definition is_lucky_roll (s : Sim) (rolled_position : nat) : bool :=
  bool_decide (rolled_position ∈ lucky_spaces s).

Definition is_unlucky_roll (s : Sim) (rolled_position : nat) : bool :=
  bool_decide (rolled_position ∈ unlucky_spaces s).

(** [roll_resolve] *)
Definition roll_resolve (fuel : nat) (s0 : Sim) (die_value : nat)
    : option (Sim * RollResult) :=
  let s := incr_roll_count s0 in
  let rolled_position := position s + die_value in
  if size (board s) <? rolled_position then
    Some (s, mkRollResult die_value 0 0)  (* Illegal move! *)
  else
    match follow_routes fuel (set_position s rolled_position) with
    | None => None
    | Some s1 =>
        let '(climb, slide) :=
          if rolled_position <? position s1
          then (position s1 - rolled_position, 0)
          else (0, rolled_position - position s1) in
        let s2 :=
          if is_unlucky_roll s1 rolled_position then incr_unlucky_rolls s1
          else if is_lucky_roll s1 rolled_position then incr_lucky_rolls s1
          else s1 in
        Some (s2, mkRollResult die_value climb slide)
    end.

(** [roll]: draw one die value, then [roll_resolve]. *)
Definition roll (fuel : nat) (s : Sim) (dice : list nat)
    : option (Sim * RollResult * list nat) :=
  match dice with
  | [] => None  (* MockDie exhausted: panic *)
  | d :: dice' =>
      match roll_resolve fuel s d with
      | None => None
      | Some (s', r) => Some (s', r, dice')
      end
  end.

(** The [while !self.has_won()] loop of [turn], with its locals
    [turn_climb], [turn_slide] and [die_rolls]. *)
Fixpoint turn_loop (fuel : nat) (s : Sim) (dice : list nat)
    (turn_climb turn_slide : nat) (die_rolls : list nat)
    : option (Sim * list nat * (nat * nat * list nat)) :=
  if has_won s then Some (s, dice, (turn_climb, turn_slide, die_rolls))
  else
    match dice with
    | [] => None
    | d :: dice' =>
        match roll_resolve fuel s d with
        | None => None
        | Some (s1, r) =>
            let tc := turn_climb + rr_climb_distance r in
            let ts := turn_slide + rr_slide_distance r in
            let dr := die_rolls ++ [die_value r] in
            if die_value r <? DIE_SIZE then Some (s1, dice', (tc, ts, dr))
            else turn_loop fuel s1 dice' tc ts dr
        end
    end.

(** [Ord for Vec<usize>]: lexicographic comparison. *)
Fixpoint vec_cmp (a b : list nat) : comparison :=
  match a, b with
  | [], [] => Eq
  | [], _ :: _ => Lt
  | _ :: _, [] => Gt
  | x :: a', y :: b' =>
      match Nat.compare x y with
      | Eq => vec_cmp a' b'
      | c => c
      end
  end.

Definition vec_gt (a b : list nat) : bool :=
  match vec_cmp a b with Gt => true | _ => false end.

(** [turn] *)
Definition turn (fuel : nat) (s0 : Sim) (dice : list nat)
    : option (Sim * list nat) :=
  let s := incr_turn_count s0 in
  match turn_loop fuel s dice 0 0 [] with
  | None => None
  | Some (s1, dice', (turn_climb, turn_slide, die_rolls)) =>
      let lt := if vec_gt die_rolls (longest_turn s1) then die_rolls
                else longest_turn s1 in
      Some (set_turn_stats s1 (Nat.max (biggest_climb s1) turn_climb)
              (Nat.max (biggest_slide s1) turn_slide) lt, dice')
  end.

(* ------------------------------------------------------------------ *)
(** ** min_avg_max *)

(** [f64] as IEEE binary64: precision 53, emax 1024. *)
Definition f64 := spec_float.
Definition f64_prec : Z := 53.
Definition f64_emax : Z := 1024.

(** [n as f64]: round to nearest, ties to even. *)
Definition usize_as_f64 (n : nat) : f64 :=
  binary_normalize f64_prec f64_emax (Z.of_nat n) 0 false.

Definition f64_div (x y : f64) : f64 := SFdiv f64_prec f64_emax x y.

Definition iter_min (l : list nat) : option nat :=
  match l with [] => None | x :: l' => Some (fold_left Nat.min l' x) end.
Definition iter_max (l : list nat) : option nat :=
  match l with [] => None | x :: l' => Some (fold_left Nat.max l' x) end.
Definition iter_sum (l : list nat) : nat := fold_left Nat.add l 0.

Definition min_avg_max (sequence : list nat) : option (nat * f64 * nat) :=
  if bool_decide (sequence = []) then None
  else
    Some (default 0 (iter_min sequence),
          f64_div (usize_as_f64 (iter_sum sequence))
                  (usize_as_f64 (length sequence)),
          default 0 (iter_max sequence)).

(* ------------------------------------------------------------------ *)
(** ** MockDie (dice.rs) *)

(** [MockDie::roll]: [self.queued_results.pop().unwrap()], popping from
    the right; [None] is the panic of [unwrap] on an empty queue. *)
Definition mock_roll (queued_results : list nat) : option (nat * list nat) :=
  match last queued_results with
  | None => None
  | Some x => Some (x, removelast queued_results)
  end.

(** [n] successive rolls of a [MockDie]. *)
Fixpoint mock_rolls (n : nat) (queued_results : list nat)
    : option (list nat * list nat) :=
  match n with
  | 0 => Some ([], queued_results)
  | S n' =>
      match mock_roll queued_results with
      | None => None
      | Some (x, q) =>
          match mock_rolls n' q with
          | None => None
          | Some (xs, q') => Some (x :: xs, q')
          end
      end
  end.

(* ------------------------------------------------------------------ *)
(** ** load_cfg, after [fs::read_to_string] and [serde_json::from_str] *)

Record ConfigFile := mkConfigFile {
  iterations : nat;
  cfg_size : nat;  (* the [size] field *)
  snakes : list (nat * nat);
  ladders : list (nat * nat)
}.

Definition duplicate_msg (from : nat) : string :=
  "Duplicate snake or ladder from square " +:+ pretty from.

(** The [for (from, to) in routes_vec] loop filling the [HashMap]. *)
Fixpoint build_routes (routes : gmap nat nat) (routes_vec : list (nat * nat))
    : Result (gmap nat nat) BadRouteError :=
  match routes_vec with
  | [] => Ok routes
  | (from, to) :: rv =>
      if bool_decide (is_Some (routes !! from)) then
        Err (BadRoute (duplicate_msg from))
      else build_routes (<[from := to]> routes) rv
  end.

(** The checks of [load_cfg] on the parsed [ConfigFile]. *)
Definition load_cfg_parsed (v : ConfigFile) : Result (Board * nat) BadRouteError :=
  if existsb (fun el => el.1 <? el.2) (snakes v) then
    Err (BadRoute "Some snake(s) are going upwards!")
  else if existsb (fun el => el.2 <? el.1) (ladders v) then
    Err (BadRoute "Some ladders(s) are going downwards!")
  else
    match build_routes ∅ (snakes v ++ ladders v) with
    | Err e => Err e
    | Ok routes =>
        match Board_new (cfg_size v) routes with
        | Err e => Err e
        | Ok b => Ok (b, iterations v)
        end
    end.

(* ------------------------------------------------------------------ *)
(** ** MultiSimResult *)

Record MultiSimResult := mkMultiSimResult {
  min_rolls : nat; avg_rolls : f64; max_rolls : nat;
  min_climb : nat; avg_climb : f64; max_climb : nat;
  min_slide : nat; avg_slide : f64; max_slide : nat;
  biggest_turn_climb : nat;
  biggest_turn_slide : nat;
  msr_longest_turn : list nat;  (* the [longest_turn] field *)
  min_lucky_rolls : nat; avg_lucky_rolls : f64; max_lucky_rolls : nat;
  min_unlucky_rolls : nat; avg_unlucky_rolls : f64; max_unlucky_rolls : nat
}.

(** [Iterator::max] on [Vec<usize>] items: [fold(first, max_by)], where
    [max_by] keeps the first only when it compares [Greater]. *)
Definition iter_max_vec (l : list (list nat)) : option (list nat) :=
  match l with
  | [] => None
  | x :: l' =>
      Some (fold_left (fun acc y =>
              match vec_cmp acc y with Gt => acc | _ => y end) l' x)
  end.

(** [MultiSimResult::from_sims]; [None] is the panic of an [unwrap] on an
    empty slice. *)
Definition from_sims (sims : list Sim) : option MultiSimResult :=
  match min_avg_max (map roll_count sims), min_avg_max (map climb_distance sims),
        min_avg_max (map slide_distance sims), min_avg_max (map lucky_rolls sims),
        min_avg_max (map unlucky_rolls sims), iter_max (map biggest_climb sims),
        iter_max (map biggest_slide sims), iter_max_vec (map longest_turn sims) with
  | Some (mnr, avr, mxr), Some (mnc, avc, mxc), Some (mns, avs, mxs),
    Some (mnl, avl, mxl), Some (mnu, avu, mxu), Some btc, Some bts, Some lt =>
      Some {| min_rolls := mnr; avg_rolls := avr; max_rolls := mxr;
              min_climb := mnc; avg_climb := avc; max_climb := mxc;
              min_slide := mns; avg_slide := avs; max_slide := mxs;
              biggest_turn_climb := btc; biggest_turn_slide := bts;
              msr_longest_turn := lt;
              min_lucky_rolls := mnl; avg_lucky_rolls := avl;
              max_lucky_rolls := mxl;
              min_unlucky_rolls := mnu; avg_unlucky_rolls := avu;
              max_unlucky_rolls := mxu |}
  | _, _, _, _, _, _, _, _ => None
  end.

(* ------------------------------------------------------------------ *)
(** ** Boards of the test suite *)

Definition board_or_blank (r : Result Board BadRouteError) : Board :=
  match r with Ok b => b | Err _ => mkBoard 0 ∅ end.

Definition blank (size : nat) : Board := board_or_blank (Board_new size ∅).

Definition canon_board : Board :=
  board_or_blank (Board_new 100
    (list_to_map [(27, 5); (40, 3); (43, 18); (54, 31); (66, 45); (76, 58);
                  (89, 53); (99, 41);
                  (4, 25); (13, 46); (33, 49); (42, 63); (50, 69); (62, 81);
                  (74, 92)])).

(** A ten-square board with one ladder 3 -> 7. *)
Definition ladder_board : Board := mkBoard 10 {[3 := 7]}.

Definition chained_board : Board :=
  board_or_blank (Board_new 100
    (list_to_map [(99, 60); (60, 30); (30, 2); (5, 1)])).

(** [run] with a bound on the number of turns. *)
Fixpoint run_turns (n fuel : nat) (s : Sim) (dice : list nat)
    : option (Sim * list nat) :=
  if has_won s then Some (s, dice) else
  match n with
  | 0 => None
  | S n' =>
      match turn fuel s dice with
      | None => None
      | Some (s', dice') => run_turns n' fuel s' dice'
      end
  end.

Definition stats (s : Sim) :=
  (turn_count s, roll_count s, climb_count s, slide_count s,
   climb_distance s, slide_distance s, biggest_climb s, biggest_slide s,
   longest_turn s, lucky_rolls s, unlucky_rolls s, has_won s).

(* ------------------------------------------------------------------ *)
(** ** Specification-side vocabulary *)

(** A route of [Board::new]'s contract: start in [1, size-1], end in
    [0, size], no self-loop. *)
Definition legal_route (size from to : nat) : Prop :=
  1 <= from <= size - 1 /\ to <= size /\ from <> to.

(** Following the routes from [p] hop by hop until a square without an
    outgoing route [q]; [hops] lists the hops (source, destination). *)
Inductive route_chain (rs : gmap nat nat) : nat -> list (nat * nat) -> nat -> Prop :=
| chain_stop p : rs !! p = None -> route_chain rs p [] p
| chain_hop p r hops q :
    rs !! p = Some r -> route_chain rs r hops q ->
    route_chain rs p ((p, r) :: hops) q.

Definition ascending (h : nat * nat) : Prop := h.1 < h.2.
Definition descending (h : nat * nat) : Prop := h.2 < h.1.

Definition climb_hops (hops : list (nat * nat)) := filter ascending hops.
Definition slide_hops (hops : list (nat * nat)) := filter descending hops.

Definition hops_climb_distance (hops : list (nat * nat)) : nat :=
  sum_list (map (fun h => h.2 - h.1) (climb_hops hops)).
Definition hops_slide_distance (hops : list (nat * nat)) : nat :=
  sum_list (map (fun h => h.1 - h.2) (slide_hops hops)).

(** The fields a roll or a turn never changes. *)
Definition same_config (s s' : Sim) : Prop :=
  board s' = board s /\ lucky_spaces s' = lucky_spaces s /\
  unlucky_spaces s' = unlucky_spaces s.

(** Every operation a caller can run on a Sim. *)
Inductive sim_step : Sim -> Sim -> Prop :=
| step_roll_resolve fuel s d s' r :
    roll_resolve fuel s d = Some (s', r) -> sim_step s s'
| step_turn fuel s dice s' dice' :
    turn fuel s dice = Some (s', dice') -> sim_step s s'.

(** The counters after following a chain of hops from [s]. *)
Definition after_hops (s : Sim) (hops : list (nat * nat)) (q : nat) : Sim :=
  set_position
    (set_counts s (turn_count s) (roll_count s)
       (climb_count s + length (climb_hops hops))
       (slide_count s + length (slide_hops hops))
       (climb_distance s + hops_climb_distance hops)
       (slide_distance s + hops_slide_distance hops)
       (lucky_rolls s) (unlucky_rolls s)) q.

(** What [roll_resolve] computes once the chain from the target square
    [position s + d] is known to be [hops], ending on [q]. *)
Definition moving_roll_outcome (s : Sim) (d : nat) (hops : list (nat * nat))
    (q : nat) : Sim * RollResult :=
  let t := position s + d in
  let s1 := after_hops (set_position (incr_roll_count s) t) hops q in
  let s2 := if is_unlucky_roll s1 t then incr_unlucky_rolls s1
            else if is_lucky_roll s1 t then incr_lucky_rolls s1 else s1 in
  (s2, mkRollResult d (if t <? q then q - t else 0)
                      (if t <? q then 0 else t - q)).

(** The fields a roll leaves alone, and the die value it reports. *)
Definition roll_frame (s s' : Sim) : Prop :=
  same_config s s' /\ turn_count s' = turn_count s /\
  biggest_climb s' = biggest_climb s /\ biggest_slide s' = biggest_slide s /\
  longest_turn s' = longest_turn s.

(** [n]'s own route leads strictly lower (a snake starts on [n]). *)
Definition snake_at (b : Board) (n : nat) : Prop :=
  exists r, routes b !! n = Some r /\ r < n.
(** [n]'s own route leads strictly higher (a ladder starts on [n]). *)
Definition ladder_at (b : Board) (n : nat) : Prop :=
  exists r, routes b !! n = Some r /\ n < r.

(** The near-miss rule in terms of the neighbouring square. *)
Definition near_snake (b : Board) (i : nat) : Prop :=
  exists n, (n + 2 = i \/ n + 1 = i \/ n = i + 1 \/ n = i + 2) /\
            0 < n /\ snake_at b n.

(** What every Sim reachable from [Sim::new b] satisfies. *)
Definition sim_invariant (b : Board) (s : Sim) : Prop :=
  board s = b /\ (lucky_spaces s, unlucky_spaces s) = calc_lucky_spaces b /\
  position s <= size b /\ lucky_rolls s + unlucky_rolls s <= roll_count s /\
  biggest_climb s <= climb_distance s /\ biggest_slide s <= slide_distance s.

(** [min_avg_max] of [l] returned [(mn, av, mx)]: the smallest and largest
    elements and the rounded mean. *)
Definition summarises (mn : nat) (av : f64) (mx : nat) (l : list nat) : Prop :=
  mn ∈ l /\ mx ∈ l /\ Forall (fun x => mn <= x <= mx) l /\
  av = f64_div (usize_as_f64 (sum_list l)) (usize_as_f64 (length l)).

(** [m] is the largest element of [l]. *)
Definition is_max_of (m : nat) (l : list nat) : Prop :=
  m ∈ l /\ Forall (fun x => x <= m) l.

(* ------------------------------------------------------------------ *)
(** ** Tests of the repository, run on the embedding *)

Example test_chained_slides :
  option_map (fun p => stats (fst p))
    (turn 10 (set_position (Sim_new chained_board) 93) [6; 3])
  = Some (1, 2, 0, 4, 0, 101, 0, 101, [6; 3], 0, 2, false).
Proof. vm_compute. reflexivity. Qed.

Example test_canon_board_speedrun :
  option_map (fun p => stats (fst p))
    (run_turns 100 10 (Sim_new canon_board) [4; 6; 2; 1; 5; 6; 2])
  = Some (5, 7, 4, 0, 74, 0, 21, 0, [6; 2], 6, 0, true).
Proof. vm_compute. reflexivity. Qed.

Example test_lucky_spaces :
  let b := board_or_blank (Board_new 20 (list_to_map [(5, 8); (14, 2)])) in
  calc_lucky_spaces b = (list_to_set [5; 12; 13; 15; 16; 20], {[14]}).
Proof. vm_compute. reflexivity. Qed.

Example test_min_max_average_empty : min_avg_max [] = None.
Proof. reflexivity. Qed.

Example test_min_max_average_singleton :
  min_avg_max [5] = Some (5, usize_as_f64 5, 5).
Proof. vm_compute. reflexivity. Qed.

Example test_empty_multi_sim_result :
  option_map (fun r => (min_rolls r, max_rolls r, min_climb r, max_climb r,
                        biggest_turn_climb r, msr_longest_turn r,
                        max_unlucky_rolls r))
    (from_sims [Sim_new (blank 100)]) = Some (0, 0, 0, 0, 0, [], 0).
Proof. vm_compute. reflexivity. Qed.

Example test_mock_die_order : mock_rolls 2 [3; 6] = Some ([6; 3], []).
Proof. reflexivity. Qed.

Ltac sim_record_eq :=
  unfold set_position, set_counts, add_climb, add_slide,
    incr_roll_count, hops_climb_distance, hops_slide_distance in *;
  simpl; f_equal; lia.

(* ------------------------------------------------------------------ *)
(** ** Board::new *)

Section Validation.
Variable size : nat.

Lemma validate_routes_None (l : list (nat * nat)) :
  validate_routes size l = None <-> Forall (fun '(f, t) => legal_route size f t) l.
Proof.
  induction l as [|[f t] l IH]; simpl.
  - split; constructor.
  - rewrite Forall_cons, <- IH. unfold legal_route.
    destruct (f =? 0) eqn:E0, (size <=? f) eqn:E1, (size <? t) eqn:E2,
      (f =? t) eqn:E3; simpl;
    rewrite ?Nat.eqb_eq, ?Nat.eqb_neq, ?Nat.leb_le, ?Nat.leb_gt,
      ?Nat.ltb_lt, ?Nat.ltb_ge in *;
    split; intros H; try discriminate; try lia;
    repeat split; try lia; tauto.
Qed.

Lemma validate_routes_Some (l : list (nat * nat)) e :
  validate_routes size l = Some e ->
  exists from to, (from, to) ∈ l /\
    ((from = 0 \/ size <= from) /\ e = BadRoute (illegal_start_msg from)
     \/ 1 <= from < size /\ size < to /\ e = BadRoute (illegal_end_msg to)
     \/ 1 <= from < size /\ to <= size /\ from = to /\
        e = BadRoute (self_loop_msg from)).
Proof.
  induction l as [|[f t] l IH]; simpl; [discriminate|].
  intros H.
  destruct (f =? 0) eqn:E0, (size <=? f) eqn:E1; simpl in H;
  rewrite ?Nat.eqb_eq, ?Nat.eqb_neq, ?Nat.leb_le, ?Nat.leb_gt in *.
  1-3: injection H as <-; exists f, t; split; [left|]; left; split; [lia|done].
  destruct (size <? t) eqn:E2.
  { injection H as <-; apply Nat.ltb_lt in E2.
    exists f, t; split; [left|]; right; left; repeat split; lia. }
  apply Nat.ltb_ge in E2.
  destruct (f =? t) eqn:E3.
  { injection H as <-; apply Nat.eqb_eq in E3.
    exists f, t; split; [left|]; right; right; repeat split; try lia; by subst. }
  destruct (IH H) as (from & to & Hin & Hc).
  exists from, to; split; [right; exact Hin | exact Hc].
Qed.

End Validation.

(** A board built by [Board::new] has only legal routes. *)
Lemma Board_new_legal sz rs b :
  Board_new sz rs = Ok b ->
  b = mkBoard sz rs /\ map_Forall (legal_route sz) rs.
Proof.
  unfold Board_new. destruct (validate_routes sz (map_to_list rs)) eqn:E;
    [discriminate|].
  intros H; injection H as <-. split; [done|].
  apply validate_routes_None in E.
  apply map_Forall_to_list. eapply Forall_impl; [exact E|]. by intros [f t].
Qed.

(* ------------------------------------------------------------------ *)
(** ** min_avg_max helpers *)

Lemma iter_sum_sum_list (l : list nat) : iter_sum l = sum_list l.
Proof.
  unfold iter_sum.
  assert (H : forall acc, fold_left Nat.add l acc = acc + sum_list l).
  { induction l as [|x l IH]; intros acc; simpl; [lia|]. rewrite IH. lia. }
  rewrite H. lia.
Qed.

Lemma fold_min_spec (l : list nat) (x : nat) :
  let m := fold_left Nat.min l x in
  (m = x \/ m ∈ l) /\ m <= x /\ Forall (fun y => m <= y) l.
Proof.
  revert x. induction l as [|y l IH]; intros x; simpl.
  - split; [by left|]. split; [lia|constructor].
  - destruct (IH (Nat.min x y)) as (Hin & Hle & Hall).
    split; [|split].
    + destruct Hin as [->|Hin]; [|right; by right].
      destruct (Nat.min_spec x y) as [[_ ->]|[_ ->]]; [by left|right; by left].
    + lia.
    + constructor; [lia|exact Hall].
Qed.

Lemma fold_max_spec (l : list nat) (x : nat) :
  let m := fold_left Nat.max l x in
  (m = x \/ m ∈ l) /\ x <= m /\ Forall (fun y => y <= m) l.
Proof.
  revert x. induction l as [|y l IH]; intros x; simpl.
  - split; [by left|]. split; [lia|constructor].
  - destruct (IH (Nat.max x y)) as (Hin & Hle & Hall).
    split; [|split].
    + destruct Hin as [->|Hin]; [|right; by right].
      destruct (Nat.max_spec x y) as [[_ ->]|[_ ->]]; [right; by left|by left].
    + lia.
    + constructor; [lia|exact Hall].
Qed.

(* ------------------------------------------------------------------ *)
(** ** Board construction (C8) *)

(** C8: [Board::new size routes] returns the board [{size; routes}] exactly
    when every route (from, to) has 1 <= from <= size-1, to <= size and
    from <> to; otherwise it returns a [BadRoute] error whose message is
    one of the three messages (illegal start, illegal end, self-loop) about
    a route of the map that has that defect and names its square. Chained
    routes and routes sharing a target are not restricted. *)
Theorem Board_new_validation (size : nat) (routes : gmap nat nat) :
  ((exists b, Board_new size routes = Ok b) <->
     map_Forall (legal_route size) routes) /\
  (forall b, Board_new size routes = Ok b -> b = mkBoard size routes) /\
  (forall e, Board_new size routes = Err e ->
     exists from to, routes !! from = Some to /\
       ((from = 0 \/ size <= from) /\ e = BadRoute (illegal_start_msg from)
        \/ 1 <= from < size /\ size < to /\ e = BadRoute (illegal_end_msg to)
        \/ 1 <= from < size /\ to <= size /\ from = to /\
           e = BadRoute (self_loop_msg from))).
Proof.
  split; [|split].
  - split.
    + intros [b Hb]. exact (proj2 (Board_new_legal _ _ _ Hb)).
    + intros Hall. unfold Board_new.
      assert (E : validate_routes size (map_to_list routes) = None).
      { apply validate_routes_None. apply map_Forall_to_list in Hall.
        eapply Forall_impl; [exact Hall|]. by intros [f t]. }
      rewrite E. by eexists.
  - intros b Hb. exact (proj1 (Board_new_legal _ _ _ Hb)).
  - intros e. unfold Board_new.
    destruct (validate_routes size (map_to_list routes)) as [e'|] eqn:E;
      [|discriminate].
    intros H; injection H as <-.
    destruct (validate_routes_Some size _ _ E) as (from & to & Hin & Hc).
    exists from, to. split; [by apply elem_of_map_to_list|exact Hc].
Qed.

(* ------------------------------------------------------------------ *)
(** ** Overroll (C3) *)

(** The overroll branch of [roll_resolve]. *)
Lemma roll_resolve_overroll_eq (fuel : nat) (s : Sim) (d : nat) :
  size (board s) < position s + d ->
  roll_resolve fuel s d = Some (incr_roll_count s, mkRollResult d 0 0).
Proof.
  intros Hlt. unfold roll_resolve. simpl.
  apply Nat.ltb_lt in Hlt. rewrite Hlt. reflexivity.
Qed.

(** C3: when [position + die_value > board.size], [roll_resolve] only
    increments [roll_count] (position and every other field unchanged) and
    returns zero climb and zero slide; in particular on a won Sim any roll
    of at least 1 is such a no-op. *)
Theorem roll_resolve_overroll (fuel : nat) (s : Sim) (d : nat) :
  (size (board s) < position s + d ->
   roll_resolve fuel s d =
     Some (set_counts s (turn_count s) (S (roll_count s)) (climb_count s)
             (slide_count s) (climb_distance s) (slide_distance s)
             (lucky_rolls s) (unlucky_rolls s),
           mkRollResult d 0 0)) /\
  (position s = size (board s) -> 1 <= d ->
   roll_resolve fuel s d =
     Some (set_counts s (turn_count s) (S (roll_count s)) (climb_count s)
             (slide_count s) (climb_distance s) (slide_distance s)
             (lucky_rolls s) (unlucky_rolls s),
           mkRollResult d 0 0)).
Proof.
  assert (H : size (board s) < position s + d ->
    roll_resolve fuel s d =
      Some (set_counts s (turn_count s) (S (roll_count s)) (climb_count s)
              (slide_count s) (climb_distance s) (slide_distance s)
              (lucky_rolls s) (unlucky_rolls s), mkRollResult d 0 0)).
  { intros Hlt. unfold roll_resolve. simpl.
    apply Nat.ltb_lt in Hlt. rewrite Hlt. reflexivity. }
  split; [exact H|]. intros Hw Hd. apply H. lia.
Qed.

Lemma roll_resolve_overroll_witness :
  size (board (Sim_new (blank 20))) < position (Sim_new (blank 20)) + 99 /\
  position (set_position (Sim_new (blank 20)) 20) =
    size (board (set_position (Sim_new (blank 20)) 20)) /\ 1 <= 1 /\
  roll_resolve 5 (Sim_new (blank 20)) 99 =
    Some (set_counts (Sim_new (blank 20)) 0 1 0 0 0 0 0 0, mkRollResult 99 0 0).
Proof.
  split; [vm_compute; lia|]. split; [reflexivity|]. split; [lia|].
  exact (proj1 (roll_resolve_overroll 5 (Sim_new (blank 20)) 99)
           ltac:(vm_compute; lia)).
Defined.

(* ------------------------------------------------------------------ *)
(** ** min_avg_max (C9) *)

(** C9: [min_avg_max] is [None] exactly on the empty sequence; on a
    non-empty sequence it is [Some (min, mean, max)] with [min] the least
    element, [max] the greatest, and [mean] the f64 division of the sum by
    the length (both converted to f64). *)
Theorem min_avg_max_spec (l : list nat) :
  (min_avg_max l = None <-> l = []) /\
  (l <> [] -> exists mn mx,
     min_avg_max l =
       Some (mn, f64_div (usize_as_f64 (sum_list l)) (usize_as_f64 (length l)), mx) /\
     mn ∈ l /\ mx ∈ l /\ Forall (fun x => mn <= x <= mx) l).
Proof.
  split.
  - unfold min_avg_max. case_bool_decide; split; intros; congruence.
  - intros Hne. destruct l as [|x l]; [done|].
    unfold min_avg_max. rewrite bool_decide_false by done.
    rewrite iter_sum_sum_list. simpl.
    destruct (fold_min_spec l x) as (Hmin & Hmle & Hmall).
    destruct (fold_max_spec l x) as (Hmax & Hxle & Hxall).
    eexists _, _. split; [reflexivity|]. split; [|split].
    + destruct Hmin as [->|?]; [left|right]; done.
    + destruct Hmax as [->|?]; [left|right]; done.
    + constructor; [lia|].
      rewrite Forall_forall in Hmall, Hxall |- *. intros y Hy.
      specialize (Hmall y Hy). specialize (Hxall y Hy). lia.
Qed.

Lemma min_avg_max_spec_witness :
  [8; 0; 3] <> [] /\
  exists mn mx,
    min_avg_max [8; 0; 3] =
      Some (mn, f64_div (usize_as_f64 11) (usize_as_f64 3), mx) /\
    mn ∈ [8; 0; 3] /\ mx ∈ [8; 0; 3] /\ Forall (fun x => mn <= x <= mx) [8; 0; 3].
Proof.
  split; [discriminate|].
  exact (proj2 (min_avg_max_spec [8; 0; 3]) ltac:(discriminate)).
Defined.

(* ------------------------------------------------------------------ *)
(** ** Route following *)

Lemma route_chain_no_self_route rs p hops q :
  route_chain rs p hops q -> rs !! p = Some p -> False.
Proof.
  induction 1 as [p Hn|p r hops q Hr Hc IH]; intros Hp; [congruence|].
  rewrite Hp in Hr. injection Hr as <-. exact (IH Hp).
Qed.

Lemma route_chain_deterministic rs p hops q hops' q' :
  route_chain rs p hops q -> route_chain rs p hops' q' -> hops = hops' /\ q = q'.
Proof.
  intros H. revert hops' q'.
  induction H as [p Hn|p r hops q Hr Hc IH]; intros hops' q' H'.
  - inversion H'; subst; [done|congruence].
  - inversion H' as [? Hn'|? r' hops'' ? Hr' Hc']; subst; [congruence|].
    rewrite Hr in Hr'. injection Hr' as <-.
    destruct (IH _ _ Hc') as [-> ->]. done.
Qed.

Lemma climb_slide_hops_cons p r hops :
  p <> r ->
  (p < r -> climb_hops ((p, r) :: hops) = (p, r) :: climb_hops hops /\
            slide_hops ((p, r) :: hops) = slide_hops hops) /\
  (r < p -> climb_hops ((p, r) :: hops) = climb_hops hops /\
            slide_hops ((p, r) :: hops) = (p, r) :: slide_hops hops).
Proof.
  intros Hne. unfold climb_hops, slide_hops, ascending, descending.
  rewrite !filter_cons. simpl.
  split; intros Hlt.
  - rewrite decide_True by lia. rewrite decide_False by lia. done.
  - rewrite decide_False by lia. rewrite decide_True by lia. done.
Qed.

Lemma follow_routes_loop_chain fuel s p hops q :
  route_chain (routes (board s)) p hops q -> length hops < fuel ->
  follow_routes_loop fuel s p = Some (after_hops s hops q).
Proof.
  intros Hc. remember (routes (board s)) as rs eqn:Ers.
  revert s fuel Ers.
  induction Hc as [p Hn|p r hops q Hr Hc IH]; intros s fuel Ers Hf;
    destruct fuel as [|fuel]; simpl in Hf; try lia; simpl; subst rs.
  - rewrite Hn. f_equal. unfold after_hops. sim_record_eq.
  - rewrite Hr.
    assert (Hne : p <> r).
    { intros ->. exact (route_chain_no_self_route _ _ _ _ Hc Hr). }
    destruct (climb_slide_hops_cons p r hops Hne) as [Hup Hdown].
    destruct (p <? r) eqn:Elt.
    + apply Nat.ltb_lt in Elt. destruct (Hup Elt) as [E1 E2].
      rewrite (IH _ fuel) by (done || lia). f_equal.
      unfold after_hops, hops_climb_distance, hops_slide_distance.
      rewrite E1, E2. simpl. sim_record_eq.
    + apply Nat.ltb_ge in Elt. destruct (Hdown ltac:(lia)) as [E1 E2].
      rewrite (IH _ fuel) by (done || lia). f_equal.
      unfold after_hops, hops_climb_distance, hops_slide_distance.
      rewrite E1, E2. simpl. sim_record_eq.
Qed.

Lemma follow_routes_loop_sound fuel s p s' :
  follow_routes_loop fuel s p = Some s' ->
  exists hops, route_chain (routes (board s)) p hops (position s') /\
               s' = after_hops s hops (position s').
Proof.
  revert s p. induction fuel as [|fuel IH]; intros s p H; simpl in H;
    [discriminate|].
  destruct (routes (board s) !! p) as [r|] eqn:Hr.
  - assert (Hb : board (if p <? r then add_climb s (r - p)
                        else add_slide s (p - r)) = board s)
      by (destruct (p <? r); reflexivity).
    destruct (IH _ _ H) as (hops & Hc & Hs). rewrite Hb in Hc.
    exists ((p, r) :: hops). split; [by constructor|].
    assert (Hne : p <> r).
    { intros ->. exact (route_chain_no_self_route _ _ _ _ Hc Hr). }
    destruct (climb_slide_hops_cons p r hops Hne) as [Hup Hdown].
    rewrite Hs at 1.
    unfold after_hops, hops_climb_distance, hops_slide_distance.
    destruct (p <? r) eqn:Elt.
    + apply Nat.ltb_lt in Elt. destruct (Hup Elt) as [E1 E2].
      rewrite E1, E2. simpl. sim_record_eq.
    + apply Nat.ltb_ge in Elt. destruct (Hdown ltac:(lia)) as [E1 E2].
      rewrite E1, E2. simpl. sim_record_eq.
  - injection H as <-. exists []. split; [by constructor|].
    unfold after_hops, hops_climb_distance, hops_slide_distance. simpl.
    sim_record_eq.
Qed.

(* ------------------------------------------------------------------ *)
(** ** roll_resolve on a moving roll *)

Lemma roll_resolve_moving_complete fuel s d hops q :
  position s + d <= size (board s) ->
  route_chain (routes (board s)) (position s + d) hops q ->
  length hops < fuel ->
  roll_resolve fuel s d = Some (moving_roll_outcome s d hops q).
Proof.
  intros Hle Hc Hf. unfold roll_resolve. simpl.
  replace (size (board s) <? position s + d) with false
    by (symmetry; apply Nat.ltb_ge; lia).
  unfold follow_routes.
  rewrite (follow_routes_loop_chain fuel _ _ hops q) by (simpl; done || lia).
  unfold moving_roll_outcome.
  change (position (after_hops ?x hops q)) with q.
  destruct (_ <? q); reflexivity.
Qed.

Lemma roll_resolve_moving_sound fuel s d s' r :
  position s + d <= size (board s) ->
  roll_resolve fuel s d = Some (s', r) ->
  exists hops q, route_chain (routes (board s)) (position s + d) hops q /\
                 (s', r) = moving_roll_outcome s d hops q.
Proof.
  intros Hle H. unfold roll_resolve in H. simpl in H.
  replace (size (board s) <? position s + d) with false in H
    by (symmetry; apply Nat.ltb_ge; lia).
  unfold follow_routes in H.
  destruct (follow_routes_loop fuel _ _) as [s1|] eqn:E; [|discriminate].
  destruct (follow_routes_loop_sound _ _ _ _ E) as (hops & Hc & Hs).
  exists hops, (position s1). split; [exact Hc|].
  unfold moving_roll_outcome. simpl in Hs. rewrite <- Hs.
  destruct (_ <? position s1); injection H as -> ->; reflexivity.
Qed.

(** The fields [after_hops] leaves alone. *)
Lemma after_hops_frame s hops q :
  board (after_hops s hops q) = board s /\
  lucky_spaces (after_hops s hops q) = lucky_spaces s /\
  unlucky_spaces (after_hops s hops q) = unlucky_spaces s /\
  lucky_rolls (after_hops s hops q) = lucky_rolls s /\
  unlucky_rolls (after_hops s hops q) = unlucky_rolls s /\
  position (after_hops s hops q) = q.
Proof. repeat split. Qed.

(* ------------------------------------------------------------------ *)
(** ** Route chains (C2) *)

(** C2: on a moving roll ([position + die_value <= board.size]) whose
    target square starts a finite chain of routes [hops] ending on a square
    [q] without a route, [roll_resolve] ends on [q] in that single call and
    counts every hop: each ascending hop adds 1 to [climb_count] and its
    length to [climb_distance], each descending hop adds 1 to [slide_count]
    and its length to [slide_distance]. ([fuel] only has to exceed the
    number of hops: it stands for the loop running to completion.) *)
Theorem roll_resolve_route_chain fuel s d hops q :
  position s + d <= size (board s) ->
  route_chain (routes (board s)) (position s + d) hops q ->
  length hops < fuel ->
  exists s' r, roll_resolve fuel s d = Some (s', r) /\
    position s' = q /\
    climb_count s' = climb_count s + length (climb_hops hops) /\
    climb_distance s' = climb_distance s + hops_climb_distance hops /\
    slide_count s' = slide_count s + length (slide_hops hops) /\
    slide_distance s' = slide_distance s + hops_slide_distance hops.
Proof.
  intros Hle Hc Hf.
  rewrite (roll_resolve_moving_complete fuel s d hops q Hle Hc Hf).
  unfold moving_roll_outcome.
  set (s1 := after_hops _ hops q).
  eexists _, _. split; [reflexivity|].
  destruct (is_unlucky_roll s1 (position s + d)),
    (is_lucky_roll s1 (position s + d)); repeat split.
Qed.

Lemma roll_resolve_route_chain_witness :
  let s := set_position (Sim_new chained_board) 93 in
  position s + 6 <= size (board s) /\
  route_chain (routes (board s)) (position s + 6) [(99, 60); (60, 30); (30, 2)] 2 /\
  length [(99, 60); (60, 30); (30, 2)] < 10 /\
  exists s' r, roll_resolve 10 s 6 = Some (s', r) /\ position s' = 2 /\
    climb_count s' = 0 /\ climb_distance s' = 0 /\
    slide_count s' = 3 /\ slide_distance s' = 97.
Proof.
  intros s.
  assert (H1 : position s + 6 <= size (board s)) by (vm_compute; lia).
  assert (H2 : route_chain (routes (board s)) (position s + 6)
                 [(99, 60); (60, 30); (30, 2)] 2).
  { repeat (apply chain_hop; [vm_compute; reflexivity|]).
    apply chain_stop. vm_compute. reflexivity. }
  split; [exact H1|]. split; [exact H2|]. split; [simpl; lia|].
  exact (roll_resolve_route_chain 10 s 6 _ 2 H1 H2 ltac:(simpl; lia)).
Defined.

(* ------------------------------------------------------------------ *)
(** ** Luck classification (C4) *)

(** C4: on a moving roll, [roll_resolve] scores luck on the target square
    [position + die_value] (not on the square the chain ends on):
    [unlucky_rolls] goes up by one if the target is unlucky, else
    [lucky_rolls] goes up by one if it is lucky, else neither changes; so a
    square in both sets counts as unlucky and at most one counter moves. *)
Theorem roll_resolve_luck fuel s d s' r :
  position s + d <= size (board s) ->
  roll_resolve fuel s d = Some (s', r) ->
  (position s + d ∈ unlucky_spaces s ->
     unlucky_rolls s' = S (unlucky_rolls s) /\ lucky_rolls s' = lucky_rolls s) /\
  (position s + d ∉ unlucky_spaces s -> position s + d ∈ lucky_spaces s ->
     lucky_rolls s' = S (lucky_rolls s) /\ unlucky_rolls s' = unlucky_rolls s) /\
  (position s + d ∉ unlucky_spaces s -> position s + d ∉ lucky_spaces s ->
     lucky_rolls s' = lucky_rolls s /\ unlucky_rolls s' = unlucky_rolls s).
Proof.
  intros Hle H.
  destruct (roll_resolve_moving_sound _ _ _ _ _ Hle H) as (hops & q & Hc & E).
  unfold moving_roll_outcome in E. injection E as Es Er. subst s'.
  unfold is_unlucky_roll, is_lucky_roll. simpl.
  repeat case_bool_decide; simpl; repeat split; intros; try tauto.
Qed.

Lemma roll_resolve_luck_witness :
  let s := set_position (Sim_new chained_board) 93 in
  position s + 6 <= size (board s) /\
  roll_resolve 10 s 6 = roll_resolve 10 s 6 /\
  exists s' r, roll_resolve 10 s 6 = Some (s', r) /\
  (position s + 6 ∈ unlucky_spaces s ->
     unlucky_rolls s' = S (unlucky_rolls s) /\ lucky_rolls s' = lucky_rolls s).
Proof.
  intros s.
  assert (H1 : position s + 6 <= size (board s)) by (vm_compute; lia).
  split; [exact H1|]. split; [reflexivity|].
  destruct (roll_resolve 10 s 6) as [[s' r]|] eqn:E;
    [|vm_compute in E; discriminate].
  exists s', r. split; [reflexivity|].
  exact (proj1 (roll_resolve_luck 10 s 6 s' r H1 E)).
Defined.

(* ------------------------------------------------------------------ *)
(** ** Net displacement of a roll (C10) *)

Lemma route_chain_displacement rs p hops q :
  route_chain rs p hops q ->
  q + hops_slide_distance hops = p + hops_climb_distance hops.
Proof.
  induction 1 as [p Hn|p r hops q Hr Hc IH].
  - reflexivity.
  - assert (Hne : p <> r).
    { intros ->. exact (route_chain_no_self_route _ _ _ _ Hc Hr). }
    destruct (climb_slide_hops_cons p r hops Hne) as [Hup Hdown].
    unfold hops_climb_distance, hops_slide_distance in *.
    destruct (Nat.lt_ge_cases p r) as [Hlt|Hge].
    + destruct (Hup Hlt) as [-> ->]. simpl. lia.
    + destruct (Hdown ltac:(lia)) as [-> ->]. simpl. lia.
Qed.

Lemma hops_distance_ge_count (hops : list (nat * nat)) :
  length (climb_hops hops) <= hops_climb_distance hops /\
  length (slide_hops hops) <= hops_slide_distance hops.
Proof.
  unfold hops_climb_distance, hops_slide_distance, climb_hops, slide_hops.
  induction hops as [|[p r] hops IH]; [simpl; lia|].
  rewrite !filter_cons.
  destruct (decide (ascending (p, r))) as [Ha|Ha],
    (decide (descending (p, r))) as [Hd|Hd];
    unfold ascending, descending in Ha, Hd; simpl in *; lia.
Qed.

Lemma roll_resolve_net_le fuel s d s' r :
  roll_resolve fuel s d = Some (s', r) ->
  rr_climb_distance r + climb_distance s <= climb_distance s' /\
  rr_slide_distance r + slide_distance s <= slide_distance s'.
Proof.
  intros H.
  destruct (Nat.lt_ge_cases (size (board s)) (position s + d)) as [Hgt|Hle].
  - rewrite (roll_resolve_overroll_eq fuel s d Hgt) in H.
    injection H as <- <-. simpl. lia.
  - destruct (roll_resolve_moving_sound _ _ _ _ _ Hle H) as (hops & q & Hc & E).
    pose proof (route_chain_displacement _ _ _ _ Hc) as Hd.
    unfold moving_roll_outcome in E. injection E as Es Er. subst s' r.
    assert (Hcd : forall x, climb_distance
      (if is_unlucky_roll x (position s + d) then incr_unlucky_rolls x
       else if is_lucky_roll x (position s + d) then incr_lucky_rolls x else x)
      = climb_distance x /\ slide_distance
      (if is_unlucky_roll x (position s + d) then incr_unlucky_rolls x
       else if is_lucky_roll x (position s + d) then incr_lucky_rolls x else x)
      = slide_distance x)
      by (intros x; destruct (is_unlucky_roll x (position s + d)),
        (is_lucky_roll x (position s + d)); split; reflexivity).
    destruct (Hcd (after_hops (set_position (incr_roll_count s) (position s + d)) hops q))
      as [-> ->].
    simpl. destruct (position s + d <? q) eqn:Elt;
      [apply Nat.ltb_lt in Elt|apply Nat.ltb_ge in Elt]; simpl; lia.
Qed.

Lemma turn_loop_net_le fuel s dice tc ts dr s' dice' tc' ts' dr' :
  turn_loop fuel s dice tc ts dr = Some (s', dice', (tc', ts', dr')) ->
  tc' + climb_distance s <= tc + climb_distance s' /\
  ts' + slide_distance s <= ts + slide_distance s'.
Proof.
  revert s tc ts dr. induction dice as [|d dice IH]; intros s tc ts dr H;
    simpl in H; destruct (has_won s);
    try (injection H as <- _ <- <- _; lia); try discriminate.
  destruct (roll_resolve fuel s d) as [[s1 r]|] eqn:E; [|discriminate].
  destruct (roll_resolve_net_le _ _ _ _ _ E) as [H1 H2].
  destruct (die_value r <? DIE_SIZE).
  - injection H as <- _ <- <- _. lia.
  - destruct (IH _ _ _ _ H) as [H3 H4]. lia.
Qed.

(** C10: on a moving roll the [RollResult] carries only the net
    displacement of the chain from the target square [t]: climb
    [final - t] if the chain ends above [t] (else 0), slide [t - final]
    otherwise. It never exceeds what the hop-by-hop counters
    [climb_distance]/[slide_distance] gain, and when the chain has both an
    ascending and a descending hop (both [climb_count] and [slide_count]
    go up) it is strictly smaller on both sides. The per-turn totals
    [turn_climb]/[turn_slide] of [turn], which feed [biggest_climb] and
    [biggest_slide], add up these results and so never exceed what the
    counters gain over the turn. *)
Theorem roll_result_net_displacement :
  (forall fuel s d s' r,
   position s + d <= size (board s) ->
   roll_resolve fuel s d = Some (s', r) ->
   rr_climb_distance r =
     (if position s + d <? position s' then position s' - (position s + d) else 0) /\
   rr_slide_distance r =
     (if position s + d <? position s' then 0 else position s + d - position s') /\
   rr_climb_distance r + climb_distance s <= climb_distance s' /\
   rr_slide_distance r + slide_distance s <= slide_distance s' /\
   (climb_count s < climb_count s' -> slide_count s < slide_count s' ->
      rr_climb_distance r + climb_distance s < climb_distance s' /\
      rr_slide_distance r + slide_distance s < slide_distance s')) /\
  (forall fuel s dice tc ts dr s' dice' tc' ts' dr',
   turn_loop fuel s dice tc ts dr = Some (s', dice', (tc', ts', dr')) ->
   tc' + climb_distance s <= tc + climb_distance s' /\
   ts' + slide_distance s <= ts + slide_distance s').
Proof.
  split; [|exact turn_loop_net_le].
  intros fuel s d s' r Hle H.
  destruct (roll_resolve_net_le _ _ _ _ _ H) as [Hc1 Hs1].
  destruct (roll_resolve_moving_sound _ _ _ _ _ Hle H) as (hops & q & Hc & E).
  pose proof (route_chain_displacement _ _ _ _ Hc) as Hd.
  pose proof (hops_distance_ge_count hops) as [Hgc Hgs].
  unfold moving_roll_outcome in E. injection E as Es Er. subst s' r.
  set (s1 := after_hops (set_position (incr_roll_count s) (position s + d)) hops q)
    in *.
  assert (Hf : forall x, position
      (if is_unlucky_roll x (position s + d) then incr_unlucky_rolls x
       else if is_lucky_roll x (position s + d) then incr_lucky_rolls x else x)
      = position x /\ climb_distance
      (if is_unlucky_roll x (position s + d) then incr_unlucky_rolls x
       else if is_lucky_roll x (position s + d) then incr_lucky_rolls x else x)
      = climb_distance x /\ slide_distance
      (if is_unlucky_roll x (position s + d) then incr_unlucky_rolls x
       else if is_lucky_roll x (position s + d) then incr_lucky_rolls x else x)
      = slide_distance x /\ climb_count
      (if is_unlucky_roll x (position s + d) then incr_unlucky_rolls x
       else if is_lucky_roll x (position s + d) then incr_lucky_rolls x else x)
      = climb_count x /\ slide_count
      (if is_unlucky_roll x (position s + d) then incr_unlucky_rolls x
       else if is_lucky_roll x (position s + d) then incr_lucky_rolls x else x)
      = slide_count x)
    by (intros x; destruct (is_unlucky_roll x (position s + d)),
          (is_lucky_roll x (position s + d)); repeat split).
  destruct (Hf s1) as (-> & -> & -> & -> & ->).
  subst s1. clear Hc1 Hs1. simpl.
  destruct (position s + d <? q) eqn:Elt;
    [apply Nat.ltb_lt in Elt|apply Nat.ltb_ge in Elt]; simpl;
    repeat split; intros; lia.
Qed.

Lemma roll_result_net_displacement_witness :
  let b := board_or_blank (Board_new 20 (list_to_map [(2, 9); (9, 5)])) in
  let s := Sim_new b in
  position s + 2 <= size (board s) /\
  exists s' r, roll_resolve 5 s 2 = Some (s', r) /\
    rr_climb_distance r = 3 /\ climb_distance s' = 7 /\
    rr_slide_distance r = 0 /\ slide_distance s' = 4 /\
    climb_count s < climb_count s' /\ slide_count s < slide_count s' /\
    rr_climb_distance r + climb_distance s < climb_distance s' /\
    rr_slide_distance r + slide_distance s < slide_distance s'.
Proof.
  intros b s.
  assert (H1 : position s + 2 <= size (board s)) by (vm_compute; lia).
  split; [exact H1|].
  destruct (roll_resolve 5 s 2) as [[s' r]|] eqn:E;
    [|vm_compute in E; discriminate].
  exists s', r. split; [reflexivity|].
  destruct (proj1 roll_result_net_displacement 5 s 2 s' r H1 E)
    as (_ & _ & _ & _ & Hstrict).
  vm_compute in E. injection E as <- <-.
  split; [reflexivity|]. split; [reflexivity|]. split; [reflexivity|].
  split; [reflexivity|]. split; [vm_compute; lia|]. split; [vm_compute; lia|].
  apply Hstrict; vm_compute; lia.
Defined.

(* ------------------------------------------------------------------ *)
(** ** Lucky and unlucky squares (C5) *)

Lemma near_miss_true_iff (b : Board) i ds :
  near_miss (routes b) i ds = true <->
  exists delta, delta ∈ ds /\ (0 < Z.of_nat i + delta)%Z /\
                snake_at b (Z.to_nat (Z.of_nat i + delta)).
Proof.
  induction ds as [|delta ds IH]; simpl.
  - split; [discriminate|]. intros (? & Hin & _). by apply elem_of_nil in Hin.
  - destruct (Z.of_nat i + delta <=? 0)%Z eqn:Ez.
    + apply Z.leb_le in Ez. rewrite IH. split.
      * intros (d' & Hin & H). exists d'. split; [by right|done].
      * intros (d' & Hin & Hpos & H). apply elem_of_cons in Hin.
        destruct Hin as [->|Hin]; [lia|]. exists d'. done.
    + apply Z.leb_gt in Ez.
      set (o := Z.to_nat (Z.of_nat i + delta)).
      assert (Ho : (default o (routes b !! o) <? o) = true <-> snake_at b o).
      { unfold snake_at. destruct (routes b !! o) as [r|]; simpl.
        - rewrite Nat.ltb_lt. split; [eauto|]. intros (r' & E & ?).
          by injection E as ->.
        - rewrite Nat.ltb_lt. split; [lia|]. intros (? & E & _). discriminate. }
      destruct (default o (routes b !! o) <? o) eqn:Eo.
      * split; [|done]. intros _. exists delta. split; [by left|].
        split; [lia|]. by apply Ho.
      * rewrite IH. split.
        -- intros (d' & Hin & H). exists d'. split; [by right|done].
        -- intros (d' & Hin & Hpos & H). apply elem_of_cons in Hin.
           destruct Hin as [->|Hin].
           ++ apply Ho in H. congruence.
           ++ exists d'. done.
Qed.

Lemma near_miss_deltas_iff (b : Board) i :
  near_miss (routes b) i near_miss_deltas = true <-> near_snake b i.
Proof.
  rewrite (near_miss_true_iff b). unfold near_snake, near_miss_deltas. split.
  - intros (delta & Hin & Hpos & H).
    exists (Z.to_nat (Z.of_nat i + delta)). split; [|split; [lia|done]].
    repeat (apply elem_of_cons in Hin; destruct Hin as [->|Hin]; [lia|]).
    by apply elem_of_nil in Hin.
  - intros (n & Hn & Hpos & H).
    exists (Z.of_nat n - Z.of_nat i)%Z.
    replace (Z.to_nat (Z.of_nat i + (Z.of_nat n - Z.of_nat i))) with n by lia.
    split; [|split; [lia|done]].
    destruct Hn as [Hn|[Hn|[Hn|Hn]]];
      [replace (Z.of_nat n - Z.of_nat i)%Z with (-2)%Z by lia; by left
      |replace (Z.of_nat n - Z.of_nat i)%Z with (-1)%Z by lia; right; by left
      |replace (Z.of_nat n - Z.of_nat i)%Z with 1%Z by lia; right; right; by left
      |replace (Z.of_nat n - Z.of_nat i)%Z with 2%Z by lia;
       right; right; right; by left].
Qed.

Lemma calc_step_spec (b : Board) acc i x :
  (x ∈ (calc_step b acc i).2 <-> x ∈ acc.2 \/ (x = i /\ snake_at b i)) /\
  (x ∈ (calc_step b acc i).1 <->
     x ∈ acc.1 \/ (x = i /\ (ladder_at b i \/ near_snake b i))).
Proof.
  destruct acc as [lucky unlucky]. unfold calc_step.
  pose proof (near_miss_deltas_iff b i) as Hn.
  assert (Hs : snake_at b i <-> Nat.compare (default i (routes b !! i)) i = Lt).
  { unfold snake_at. rewrite Nat.compare_lt_iff.
    destruct (routes b !! i) as [r|]; simpl.
    - split; [intros (r' & E & ?); by injection E as ->|eauto].
    - split; [intros (? & E & _); discriminate|lia]. }
  assert (Hl : ladder_at b i <-> Nat.compare (default i (routes b !! i)) i = Gt).
  { unfold ladder_at. rewrite Nat.compare_gt_iff.
    destruct (routes b !! i) as [r|]; simpl.
    - split; [intros (r' & E & ?); by injection E as ->|eauto].
    - split; [intros (? & E & _); discriminate|lia]. }
  destruct (Nat.compare (default i (routes b !! i)) i);
    destruct (near_miss (routes b) i near_miss_deltas); cbn [fst snd];
    split; rewrite ?elem_of_union, ?elem_of_singleton;
    destruct Hs, Hl, Hn; intuition (subst; (congruence || eauto)).
Qed.


Lemma calc_lucky_fold (b : Board) (L : list nat) acc x :
  (x ∈ (fold_left (calc_step b) L acc).2 <->
     x ∈ acc.2 \/ (x ∈ L /\ snake_at b x)) /\
  (x ∈ (fold_left (calc_step b) L acc).1 <->
     x ∈ acc.1 \/ (x ∈ L /\ (ladder_at b x \/ near_snake b x))).
Proof.
  revert acc. induction L as [|i L IH]; intros acc; simpl.
  - rewrite !elem_of_nil. tauto.
  - destruct (IH (calc_step b acc i)) as [IH2 IH1].
    destruct (calc_step_spec b acc i x) as [S2 S1].
    rewrite IH2, IH1, S2, S1, !elem_of_cons.
    split; split; intros H; intuition (subst; eauto).
Qed.

(** C5: [calc_lucky_spaces] returns as unlucky set exactly the squares
    [i < board.size] whose own route leads strictly lower, and as lucky set
    exactly the squares [i < board.size] whose own route leads strictly
    higher or which have a neighbour [n] at offset -2, -1, +1 or +2 with
    [n > 0] whose route leads strictly lower than [n], plus the winning
    square [board.size]. *)
Theorem calc_lucky_spaces_spec (b : Board) (i : nat) :
  (i ∈ (calc_lucky_spaces b).2 <->
     i < size b /\ exists r, routes b !! i = Some r /\ r < i) /\
  (i ∈ (calc_lucky_spaces b).1 <->
     (i < size b /\
      ((exists r, routes b !! i = Some r /\ i < r) \/
       (exists n, (n + 2 = i \/ n + 1 = i \/ n = i + 1 \/ n = i + 2) /\
                  0 < n /\ exists r, routes b !! n = Some r /\ r < n)))
     \/ i = size b).
Proof.
  unfold calc_lucky_spaces.
  pose proof (calc_lucky_fold b (seq 0 (size b)) (∅, ∅) i) as [H2 H1].
  destruct (fold_left (calc_step b) (seq 0 (size b)) (∅, ∅)) as [lucky unlucky].
  cbn [fst snd] in *.
  rewrite elem_of_seq, elem_of_empty in H1, H2.
  rewrite elem_of_union, elem_of_singleton, H1, H2.
  unfold snake_at, ladder_at, near_snake. intuition lia.
Qed.

(* ------------------------------------------------------------------ *)
(** ** Frame of a roll and of the turn loop *)

Lemma roll_resolve_frame fuel s d s' r :
  roll_resolve fuel s d = Some (s', r) -> roll_frame s s' /\ die_value r = d.
Proof.
  intros H.
  destruct (Nat.lt_ge_cases (size (board s)) (position s + d)) as [Hgt|Hle].
  - rewrite (roll_resolve_overroll_eq fuel s d Hgt) in H.
    injection H as <- <-. repeat split.
  - destruct (roll_resolve_moving_sound _ _ _ _ _ Hle H) as (hops & q & Hc & E).
    unfold moving_roll_outcome in E. injection E as Es Er. subst s' r.
    set (s1 := after_hops _ hops q).
    destruct (is_unlucky_roll s1 (position s + d)),
      (is_lucky_roll s1 (position s + d)); repeat split.
Qed.

Lemma roll_frame_trans s1 s2 s3 :
  roll_frame s1 s2 -> roll_frame s2 s3 -> roll_frame s1 s3.
Proof.
  unfold roll_frame, same_config. intros H1 H2. intuition congruence.
Qed.

Lemma turn_loop_frame fuel s dice tc ts dr s' dice' tc' ts' dr' :
  turn_loop fuel s dice tc ts dr = Some (s', dice', (tc', ts', dr')) ->
  roll_frame s s' /\
  exists used, dice = used ++ dice' /\ dr' = dr ++ used.
Proof.
  revert s tc ts dr. induction dice as [|d dice IH]; intros s tc ts dr H;
    simpl in H; destruct (has_won s) eqn:Ew.
  1,3: injection H as <- <- _ _ <-; split; [repeat split|];
       exists []; split; [done|by rewrite app_nil_r].
  1: discriminate.
  destruct (roll_resolve fuel s d) as [[s1 r]|] eqn:E; [|discriminate].
  destruct (roll_resolve_frame _ _ _ _ _ E) as [Hf Hd]. rewrite Hd in H.
  destruct (d <? DIE_SIZE).
  - injection H as <- <- _ _ <-. split; [exact Hf|].
    exists [d]. done.
  - destruct (IH _ _ _ _ H) as [Hf' (used & -> & ->)].
    split; [exact (roll_frame_trans _ _ _ Hf Hf')|].
    exists (d :: used). by rewrite <- app_assoc.
Qed.

(* ------------------------------------------------------------------ *)
(** ** Turn extension (C1) *)

(** C1: in the loop of [turn], from a Sim that has not won, with a die
    value [d] in the die source's range ([d <= DIE_SIZE]): after the roll
    of [d] the loop goes on to roll again exactly when [d = DIE_SIZE] and
    the game is not won after that roll; otherwise the turn ends right
    after that roll, leaving the rest of the dice unused. This holds on an
    overroll too (the roll moves nothing but a [DIE_SIZE] still goes on). *)
Theorem turn_loop_extension fuel s d dice tc ts dr s1 r :
  has_won s = false ->
  d <= DIE_SIZE ->
  roll_resolve fuel s d = Some (s1, r) ->
  (d = DIE_SIZE /\ has_won s1 = false ->
     turn_loop fuel s (d :: dice) tc ts dr =
       turn_loop fuel s1 dice (tc + rr_climb_distance r)
         (ts + rr_slide_distance r) (dr ++ [d])) /\
  (~ (d = DIE_SIZE /\ has_won s1 = false) ->
     turn_loop fuel s (d :: dice) tc ts dr =
       Some (s1, dice, (tc + rr_climb_distance r, ts + rr_slide_distance r,
                        dr ++ [d]))).
Proof.
  intros Hw Hd E.
  destruct (roll_resolve_frame _ _ _ _ _ E) as [_ Hdv].
  simpl. rewrite Hw, E, Hdv.
  split.
  - intros [-> Hw1]. rewrite Nat.ltb_irrefl. reflexivity.
  - intros Hn. destruct (d <? DIE_SIZE) eqn:Elt; [reflexivity|].
    apply Nat.ltb_ge in Elt.
    assert (Hw1 : has_won s1 = true).
    { destruct (has_won s1); [done|]. exfalso. apply Hn. split; [lia|done]. }
    destruct dice as [|d' dice]; simpl; rewrite Hw1; reflexivity.
Qed.

Lemma turn_loop_extension_witness :
  let s := set_position (Sim_new (blank 20)) 18 in
  has_won s = false /\ 6 <= DIE_SIZE /\
  roll_resolve 5 s 6 = Some (incr_roll_count s, mkRollResult 6 0 0) /\
  turn_loop 5 s [6; 1] 0 0 [] = turn_loop 5 (incr_roll_count s) [1] 0 0 [6].
Proof.
  intros s.
  assert (Hw : has_won s = false) by reflexivity.
  assert (E : roll_resolve 5 s 6 = Some (incr_roll_count s, mkRollResult 6 0 0))
    by reflexivity.
  split; [exact Hw|]. split; [unfold DIE_SIZE; lia|]. split; [exact E|].
  exact (proj1 (turn_loop_extension 5 s 6 [1] 0 0 [] _ _ Hw
                  ltac:(unfold DIE_SIZE; lia) E) (conj eq_refl eq_refl)).
Defined.

(* ------------------------------------------------------------------ *)
(** ** Longest turn (C7) *)

Lemma vec_gt_prefix (l : list nat) x xs : vec_gt (l ++ x :: xs) l = true.
Proof. induction l as [|y l IH]; [reflexivity|]. simpl. unfold vec_gt in *.
  simpl. rewrite Nat.compare_refl. exact IH. Qed.

(** C7: turn sequences are compared lexicographically, a sequence beating
    its own proper prefixes ([6;5] < [6;6;2] < [6;6;3]); at the end of
    [turn], [longest_turn] becomes the die values rolled in that turn
    exactly when they are strictly greater than the stored sequence, and
    stays as it was otherwise. *)
Theorem turn_longest_turn :
  vec_gt [6; 6; 2] [6; 5] = true /\ vec_gt [6; 6; 3] [6; 6; 2] = true /\
  vec_gt [6; 5] [6; 6; 2] = false /\ vec_gt [6; 6; 2] [6; 6; 3] = false /\
  (forall (l : list nat) x xs, vec_gt (l ++ x :: xs) l = true /\
                               vec_gt l (l ++ x :: xs) = false) /\
  (forall x y a b, vec_gt (x :: a) (y :: b) =
     (y <? x) || ((x =? y) && vec_gt a b)) /\
  (forall fuel s dice s' dice',
   turn fuel s dice = Some (s', dice') ->
   exists rolls, dice = rolls ++ dice' /\
     longest_turn s' =
       if vec_gt rolls (longest_turn s) then rolls else longest_turn s).
Proof.
  split; [reflexivity|]. split; [reflexivity|].
  split; [reflexivity|]. split; [reflexivity|].
  split.
  { intros l x xs. split; [apply vec_gt_prefix|].
    induction l as [|y l IH]; [reflexivity|]. unfold vec_gt in *. simpl.
    rewrite Nat.compare_refl. exact IH. }
  split.
  { intros x y a b. unfold vec_gt. simpl.
    destruct (Nat.compare_spec x y) as [->|Hlt|Hgt].
    - rewrite Nat.ltb_irrefl, Nat.eqb_refl. reflexivity.
    - replace (y <? x) with false by (symmetry; apply Nat.ltb_ge; lia).
      replace (x =? y) with false by (symmetry; apply Nat.eqb_neq; lia).
      reflexivity.
    - replace (y <? x) with true by (symmetry; apply Nat.ltb_lt; lia).
      reflexivity. }
  intros fuel s dice s' dice' H. unfold turn in H.
  destruct (turn_loop fuel (incr_turn_count s) dice 0 0 [])
    as [[[s1 dice1] [[tc ts] rolls]]|] eqn:E; [|discriminate].
  injection H as <- <-.
  destruct (turn_loop_frame _ _ _ _ _ _ _ _ _ _ _ E)
    as [(_ & _ & _ & _ & Hlt) (used & -> & ->)].
  exists used. split; [reflexivity|]. simpl. rewrite Hlt. reflexivity.
Qed.

Lemma turn_longest_turn_witness :
  exists s' dice',
    turn 10 (set_position (Sim_new chained_board) 93) [6; 3] = Some (s', dice') /\
    exists rolls, [6; 3] = rolls ++ dice' /\
      longest_turn s' = if vec_gt rolls [] then rolls else [].
Proof.
  destruct (turn 10 (set_position (Sim_new chained_board) 93) [6; 3])
    as [[s' dice']|] eqn:E; [|vm_compute in E; discriminate].
  exists s', dice'. split; [reflexivity|].
  exact (proj2 (proj2 (proj2 (proj2 (proj2 (proj2 turn_longest_turn)))))
           10 _ _ s' dice' E).
Defined.

(* ------------------------------------------------------------------ *)
(** ** Won is absorbing (C6) *)

Lemma roll_resolve_keeps_won sz rs fuel s d s' r :
  board s = mkBoard sz rs -> map_Forall (legal_route sz) rs ->
  has_won s = true -> roll_resolve fuel s d = Some (s', r) ->
  has_won s' = true.
Proof.
  intros Hb Hleg Hw H. unfold has_won in *. apply Nat.eqb_eq in Hw.
  destruct (roll_resolve_frame _ _ _ _ _ H) as [[[Hb' _] _] _].
  rewrite Hb'. apply Nat.eqb_eq.
  destruct (Nat.lt_ge_cases (size (board s)) (position s + d)) as [Hgt|Hle].
  - rewrite (roll_resolve_overroll_eq fuel s d Hgt) in H.
    injection H as <- _. exact Hw.
  - destruct (roll_resolve_moving_sound _ _ _ _ _ Hle H) as (hops & q & Hc & E).
    assert (Ht : position s + d = size (board s)) by lia.
    assert (Hnone : routes (board s) !! size (board s) = None).
    { rewrite Hb. simpl. destruct (rs !! sz) as [t|] eqn:Er; [|done].
      destruct (Hleg _ _ Er) as [? _]. lia. }
    rewrite Ht in Hc.
    assert (Hq : q = size (board s)).
    { inversion Hc as [p Hp Ep Eq|p r' hops' q' Hr _ Ep]; [done|congruence]. }
    unfold moving_roll_outcome in E. injection E as Es _. subst s'.
    set (s1 := after_hops _ hops q).
    destruct (is_unlucky_roll s1 (position s + d)),
      (is_lucky_roll s1 (position s + d)); exact Hq.
Qed.

Lemma turn_keeps_won fuel s dice s' dice' :
  has_won s = true -> turn fuel s dice = Some (s', dice') ->
  has_won s' = true /\ board s' = board s.
Proof.
  intros Hw H. unfold turn in H.
  assert (Hw0 : has_won (incr_turn_count s) = true) by exact Hw.
  destruct dice as [|d dice]; simpl in H; rewrite Hw0 in H;
    injection H as <- _; split; [exact Hw|reflexivity|exact Hw|reflexivity].
Qed.

(** C6: [has_won] holds exactly when [position == board.size]; and on a
    board built by [Board::new], once [has_won] holds no sequence of
    [roll_resolve] and [turn] calls makes it false again. *)
Theorem has_won_absorbing (sz : nat) (rs : gmap nat nat) (s : Sim) :
  Board_new sz rs = Ok (board s) ->
  (has_won s = true <-> position s = size (board s)) /\
  (forall s', has_won s = true -> rtc sim_step s s' -> has_won s' = true).
Proof.
  intros Hnew. destruct (Board_new_legal _ _ _ Hnew) as [Hb Hleg].
  split; [apply Nat.eqb_eq|].
  intros s' Hw Hrtc. revert Hw Hb.
  induction Hrtc as [x|x y z Hxy Hyz IH]; intros Hw Hb; [exact Hw|].
  assert (Hy : has_won y = true /\ board y = board x).
  { destruct Hxy as [fuel x d y r H|fuel x dice y dice' H].
    - split; [exact (roll_resolve_keeps_won _ _ _ _ _ _ _ Hb Hleg Hw H)|].
      destruct (roll_resolve_frame _ _ _ _ _ H) as [[[Hb' _] _] _]. exact Hb'.
    - exact (turn_keeps_won _ _ _ _ _ Hw H). }
  destruct Hy as [Hwy Hby]. apply IH; [congruence|exact Hwy|congruence].
Qed.

Lemma has_won_absorbing_witness :
  let s := set_position (Sim_new (blank 20)) 20 in
  Board_new 20 ∅ = Ok (board s) /\ has_won s = true /\
  has_won (fst (default (s, mkRollResult 0 0 0) (roll_resolve 5 s 0))) = true.
Proof.
  intros s.
  assert (Hn : Board_new 20 ∅ = Ok (board s)) by reflexivity.
  assert (Hw : has_won s = true) by reflexivity.
  split; [exact Hn|]. split; [exact Hw|].
  destruct (roll_resolve 5 s 0) as [[s' r]|] eqn:E;
    [|vm_compute in E; discriminate].
  simpl. apply (proj2 (has_won_absorbing 20 ∅ s Hn) s' Hw).
  apply rtc_once. exact (step_roll_resolve 5 s 0 s' r E).
Defined.

(* ------------------------------------------------------------------ *)
(** ** blank and MockDie *)

Lemma Board_new_of_legal sz rs :
  map_Forall (legal_route sz) rs -> Board_new sz rs = Ok (mkBoard sz rs).
Proof.
  intros Hall. unfold Board_new.
  assert (E : validate_routes sz (map_to_list rs) = None).
  { apply validate_routes_None. apply map_Forall_to_list in Hall.
    eapply Forall_impl; [exact Hall|]. by intros [f t]. }
  rewrite E. reflexivity.
Qed.

(** [blank(size)]: [Board::new] accepts the empty route map for every
    size, so the [unwrap] in [blank] never panics. *)
Theorem blank_never_panics (size : nat) :
  Board_new size ∅ = Ok (mkBoard size ∅) /\ blank size = mkBoard size ∅.
Proof.
  assert (H : Board_new size ∅ = Ok (mkBoard size ∅)).
  { apply Board_new_of_legal. apply map_Forall_empty. }
  split; [exact H|]. unfold blank. rewrite H. reflexivity.
Qed.

(** A [MockDie] hands out its queue right to left: [length q] rolls of a
    die queued with [p ++ q] return [rev q] and leave [p] queued; a roll
    of an empty queue panics. *)
Theorem mock_die_pops_right_to_left (p q : list nat) :
  mock_rolls (length q) (p ++ q) = Some (rev q, p) /\ mock_roll [] = None.
Proof.
  split; [|reflexivity].
  induction q as [|x q IH] using rev_ind.
  - simpl. by rewrite app_nil_r.
  - rewrite length_app. simpl. rewrite Nat.add_1_r. simpl.
    unfold mock_roll. rewrite app_assoc, last_snoc, removelast_last, IH.
    by rewrite rev_unit.
Qed.

(* ------------------------------------------------------------------ *)
(** ** load_cfg *)

Lemma build_routes_sound m rv m' :
  build_routes m rv = Ok m' ->
  NoDup (map fst rv) /\ Forall (fun h => m !! h.1 = None) rv /\
  (forall f t, m' !! f = Some t <-> (f, t) ∈ rv \/ m !! f = Some t).
Proof.
  revert m. induction rv as [|[f t] rv IH]; intros m H; simpl in H.
  - injection H as <-. split; [constructor|]. split; [constructor|].
    intros f t. rewrite elem_of_nil. tauto.
  - case_bool_decide as Hs; [discriminate|].
    apply eq_None_not_Some in Hs.
    destruct (IH _ H) as (Hnd & Hfr & Hlk).
    split; [|split].
    + simpl. constructor; [|exact Hnd].
      intros Hin. apply list_elem_of_fmap in Hin as ([f' t'] & Ef & Hin).
      simpl in Ef. subst f'.
      rewrite Forall_forall in Hfr. specialize (Hfr _ Hin). simpl in Hfr.
      by rewrite lookup_insert_eq in Hfr.
    + constructor; [exact Hs|].
      eapply Forall_impl; [exact Hfr|]. intros [f' t'] Hn. simpl in *.
      destruct (decide (f = f')) as [->|Hne].
      * by rewrite lookup_insert_eq in Hn.
      * by rewrite lookup_insert_ne in Hn.
    + intros f' t'. rewrite Hlk, elem_of_cons.
      destruct (decide (f = f')) as [->|Hne].
      * rewrite lookup_insert_eq. split.
        -- intros [Hin|Ht]; [by left; right|]. injection Ht as <-. by left; left.
        -- intros [[Ht|Hin]|Hm]; [injection Ht as <-; by right|by left|congruence].
      * rewrite lookup_insert_ne by done. split.
        -- intros [Hin|Hm]; [by left; right|by right].
        -- intros [[Ht|Hin]|Hm]; [injection Ht; congruence|by left|by right].
Qed.

Lemma build_routes_complete m rv :
  NoDup (map fst rv) -> Forall (fun h => m !! h.1 = None) rv ->
  exists m', build_routes m rv = Ok m'.
Proof.
  revert m. induction rv as [|[f t] rv IH]; intros m Hnd Hfr; simpl;
    [by eexists|].
  apply Forall_cons in Hfr as [Hf Hfr]. simpl in Hf.
  rewrite Hf. rewrite bool_decide_false by (intros [? ?]; discriminate).
  simpl in Hnd. apply NoDup_cons in Hnd as [Hnin Hnd].
  apply IH; [exact Hnd|].
  rewrite Forall_forall in Hfr |- *. intros [f' t'] Hin.
  specialize (Hfr _ Hin). simpl in *.
  rewrite lookup_insert_ne; [exact Hfr|].
  intros Heq. apply Hnin. apply list_elem_of_fmap. exists (f', t').
  by rewrite Heq.
Qed.

Lemma existsb_false_Forall {A} (P : A -> bool) (l : list A) :
  existsb P l = false <-> Forall (fun x => P x = false) l.
Proof.
  induction l as [|x l IH]; simpl; [split; [constructor|done]|].
  rewrite Forall_cons, <- IH, orb_false_iff. done.
Qed.

Lemma load_cfg_parsed_ok_inv v b it :
  load_cfg_parsed v = Ok (b, it) ->
  Forall (fun el => el.2 <= el.1) (snakes v) /\
  Forall (fun el => el.1 <= el.2) (ladders v) /\
  exists m, build_routes ∅ (snakes v ++ ladders v) = Ok m /\
            Board_new (cfg_size v) m = Ok b /\ it = iterations v.
Proof.
  unfold load_cfg_parsed.
  destruct (existsb _ (snakes v)) eqn:Es; [discriminate|].
  destruct (existsb _ (ladders v)) eqn:El; [discriminate|].
  destruct (build_routes ∅ _) as [m|e] eqn:Eb; [|discriminate].
  destruct (Board_new (cfg_size v) m) as [b'|e] eqn:En; [|discriminate].
  intros H; injection H as <- <-.
  apply existsb_false_Forall in Es, El.
  split; [eapply Forall_impl; [exact Es|]; intros [f t]; simpl;
          rewrite Nat.ltb_ge; done|].
  split; [eapply Forall_impl; [exact El|]; intros [f t]; simpl;
          rewrite Nat.ltb_ge; done|].
  by exists m.
Qed.

(** [load_cfg] accepts a parsed configuration exactly when no snake goes
    up, no ladder goes down, no square starts two routes (snakes and
    ladders together), and every route passes [Board::new]'s checks. *)
Theorem load_cfg_accepts_iff (v : ConfigFile) :
  (exists r, load_cfg_parsed v = Ok r) <->
  Forall (fun el => el.2 <= el.1) (snakes v) /\
  Forall (fun el => el.1 <= el.2) (ladders v) /\
  NoDup (map fst (snakes v ++ ladders v)) /\
  Forall (fun el => legal_route (cfg_size v) el.1 el.2) (snakes v ++ ladders v).
Proof.
  split.
  - intros [[b it] H].
    destruct (load_cfg_parsed_ok_inv _ _ _ H) as (Hs & Hl & m & Eb & En & _).
    destruct (build_routes_sound _ _ _ Eb) as (Hnd & _ & Hlk).
    destruct (Board_new_legal _ _ _ En) as [_ Hleg].
    split; [exact Hs|]. split; [exact Hl|]. split; [exact Hnd|].
    rewrite Forall_forall. intros [f t] Hin.
    apply (Hleg f t). apply Hlk. by left.
  - intros (Hs & Hl & Hnd & Hleg).
    destruct (build_routes_complete ∅ (snakes v ++ ladders v) Hnd)
      as [m Eb].
    { rewrite Forall_forall. intros h _. apply lookup_empty. }
    destruct (build_routes_sound _ _ _ Eb) as (_ & _ & Hlk).
    assert (Hm : map_Forall (legal_route (cfg_size v)) m).
    { intros f t Hft. apply Hlk in Hft as [Hin|Hm];
        [|by rewrite lookup_empty in Hm].
      rewrite Forall_forall in Hleg. exact (Hleg _ Hin). }
    exists (mkBoard (cfg_size v) m, iterations v).
    unfold load_cfg_parsed.
    replace (existsb _ (snakes v)) with false.
    2:{ symmetry. apply existsb_false_Forall. eapply Forall_impl; [exact Hs|].
        intros [f t]; simpl; rewrite Nat.ltb_ge; done. }
    replace (existsb _ (ladders v)) with false.
    2:{ symmetry. apply existsb_false_Forall. eapply Forall_impl; [exact Hl|].
        intros [f t]; simpl; rewrite Nat.ltb_ge; done. }
    rewrite Eb, (Board_new_of_legal _ _ Hm). reflexivity.
Qed.

(** On success, [load_cfg] returns the iteration count as read and a board
    of the configured size whose routes are exactly the snakes and the
    ladders; every snake then goes strictly down and every ladder strictly
    up (a route to its own square is refused by [Board::new]). *)
Theorem load_cfg_board (v : ConfigFile) (b : Board) (it : nat) :
  load_cfg_parsed v = Ok (b, it) ->
  it = iterations v /\ size b = cfg_size v /\
  (forall f t, routes b !! f = Some t <-> (f, t) ∈ snakes v ++ ladders v) /\
  Forall (fun el => el.2 < el.1) (snakes v) /\
  Forall (fun el => el.1 < el.2) (ladders v).
Proof.
  intros H.
  destruct (load_cfg_parsed_ok_inv _ _ _ H) as (Hs & Hl & m & Eb & En & Hit).
  destruct (build_routes_sound _ _ _ Eb) as (_ & _ & Hlk).
  destruct (Board_new_legal _ _ _ En) as [-> Hleg].
  assert (Hin : forall f t, (f, t) ∈ snakes v ++ ladders v -> f <> t).
  { intros f t Hft. assert (Hm : m !! f = Some t) by (apply Hlk; by left).
    destruct (Hleg _ _ Hm) as (_ & _ & Hne). exact Hne. }
  split; [exact Hit|]. split; [reflexivity|]. split.
  { intros f t. simpl. rewrite Hlk, lookup_empty. split; [|by left].
    intros [?|?]; [done|discriminate]. }
  split.
  - rewrite Forall_forall in Hs |- *. intros [f t] Hft.
    specialize (Hs _ Hft). simpl in *.
    assert (f <> t) by (apply Hin; apply elem_of_app; by left). lia.
  - rewrite Forall_forall in Hl |- *. intros [f t] Hft.
    specialize (Hl _ Hft). simpl in *.
    assert (f <> t) by (apply Hin; apply elem_of_app; by right). lia.
Qed.

Lemma load_cfg_board_witness :
  let v := mkConfigFile 10 20 [(14, 2)] [(5, 8)] in
  exists b it, load_cfg_parsed v = Ok (b, it) /\
  it = iterations v /\ size b = cfg_size v /\
  (forall f t, routes b !! f = Some t <-> (f, t) ∈ snakes v ++ ladders v) /\
  Forall (fun el => el.2 < el.1) (snakes v) /\
  Forall (fun el => el.1 < el.2) (ladders v).
Proof.
  intros v.
  destruct (load_cfg_parsed v) as [[b it]|e] eqn:E;
    [|vm_compute in E; discriminate].
  exists b, it. split; [reflexivity|].
  exact (load_cfg_board v b it E).
Defined.

(* ------------------------------------------------------------------ *)
(** ** Counters of a roll *)

Lemma roll_resolve_counts fuel s s' d r :
  roll_resolve fuel s d = Some (s', r) ->
  roll_count s' = S (roll_count s) /\
  climb_count s <= climb_count s' /\ slide_count s <= slide_count s' /\
  climb_distance s <= climb_distance s' /\ slide_distance s <= slide_distance s' /\
  lucky_rolls s <= lucky_rolls s' /\ unlucky_rolls s <= unlucky_rolls s' /\
  lucky_rolls s' + unlucky_rolls s' <= S (lucky_rolls s + unlucky_rolls s).
Proof.
  intros H.
  destruct (Nat.lt_ge_cases (size (board s)) (position s + d)) as [Hgt|Hle].
  - rewrite (roll_resolve_overroll_eq fuel s d Hgt) in H.
    injection H as <- <-. simpl. lia.
  - destruct (roll_resolve_moving_sound _ _ _ _ _ Hle H) as (hops & q & Hc & E).
    unfold moving_roll_outcome in E. injection E as Es Er. subst s'.
    set (s1 := after_hops _ hops q).
    assert (Hs1 : roll_count s1 = S (roll_count s) /\
      climb_count s <= climb_count s1 /\ slide_count s <= slide_count s1 /\
      climb_distance s <= climb_distance s1 /\
      slide_distance s <= slide_distance s1 /\
      lucky_rolls s1 = lucky_rolls s /\ unlucky_rolls s1 = unlucky_rolls s)
      by (subst s1; simpl; lia).
    destruct (is_unlucky_roll s1 (position s + d)),
      (is_lucky_roll s1 (position s + d)); simpl; lia.
Qed.

(** A call of [roll_resolve] adds exactly one to [roll_count], never
    decreases a climb or slide counter or distance, and adds at most one to
    [lucky_rolls] and [unlucky_rolls] taken together (neither decreases). *)
Theorem roll_resolve_counters (fuel : nat) (s s' : Sim) (d : nat) (r : RollResult) :
  roll_resolve fuel s d = Some (s', r) ->
  roll_count s' = S (roll_count s) /\
  climb_count s <= climb_count s' /\ slide_count s <= slide_count s' /\
  climb_distance s <= climb_distance s' /\ slide_distance s <= slide_distance s' /\
  lucky_rolls s <= lucky_rolls s' /\ unlucky_rolls s <= unlucky_rolls s' /\
  lucky_rolls s' + unlucky_rolls s' <= S (lucky_rolls s + unlucky_rolls s).
Proof. exact (roll_resolve_counts fuel s s' d r). Qed.

Lemma roll_resolve_counters_witness :
  exists s' r, roll_resolve 10 (set_position (Sim_new chained_board) 93) 6 = Some (s', r) /\
  roll_count s' = 1 /\ lucky_rolls s' + unlucky_rolls s' <= 1 /\
  slide_distance (set_position (Sim_new chained_board) 93) <= slide_distance s'.
Proof.
  destruct (roll_resolve 10 (set_position (Sim_new chained_board) 93) 6)
    as [[s' r]|] eqn:E; [|vm_compute in E; discriminate].
  exists s', r. split; [reflexivity|].
  destruct (roll_resolve_counters _ _ _ _ _ E) as (H1 & _ & _ & _ & H5 & _ & _ & H8).
  split; [exact H1|]. split; [simpl in H8; exact H8|exact H5].
Defined.

(* ------------------------------------------------------------------ *)
(** ** Invariants of reachable Sims *)

Lemma route_chain_end_bound sz rs p hops q :
  route_chain rs p hops q -> map_Forall (legal_route sz) rs -> p <= sz -> q <= sz.
Proof.
  induction 1 as [p Hn|p r hops q Hr Hc IH]; intros Hleg Hp; [exact Hp|].
  apply IH; [exact Hleg|]. destruct (Hleg _ _ Hr) as (_ & Hto & _). exact Hto.
Qed.

Lemma roll_resolve_invariant sz rs fuel s d s' r :
  Board_new sz rs = Ok (board s) ->
  sim_invariant (board s) s -> roll_resolve fuel s d = Some (s', r) ->
  sim_invariant (board s) s'.
Proof.
  intros Hnew (Hb & Hl & Hp & Hlu & Hbc & Hbs) H.
  destruct (Board_new_legal _ _ _ Hnew) as [Eb Hleg].
  destruct (roll_resolve_frame _ _ _ _ _ H)
    as [[(Hb' & Hls & Hus) (_ & Hbc' & Hbs' & _)] _].
  destruct (roll_resolve_counts _ _ _ _ _ H)
    as (Hrc & _ & _ & Hcd & Hsd & _ & _ & Hluck).
  split; [exact Hb'|]. split; [rewrite Hls, Hus; exact Hl|].
  split; [|split; [lia|split; lia]].
  destruct (Nat.lt_ge_cases (size (board s)) (position s + d)) as [Hgt|Hle].
  - rewrite (roll_resolve_overroll_eq fuel s d Hgt) in H.
    injection H as <- <-. exact Hp.
  - destruct (roll_resolve_moving_sound _ _ _ _ _ Hle H) as (hops & q & Hc & E).
    rewrite Eb in Hc, Hle. simpl in Hc, Hle.
    pose proof (route_chain_end_bound _ _ _ _ _ Hc Hleg Hle) as Hq.
    unfold moving_roll_outcome in E. injection E as Es Er. subst s'.
    set (s1 := after_hops _ hops q).
    rewrite Eb. simpl.
    destruct (is_unlucky_roll s1 (position s + d)),
      (is_lucky_roll s1 (position s + d)); exact Hq.
Qed.

Lemma turn_loop_invariant sz rs fuel s dice tc ts dr s' dice' tc' ts' dr' :
  Board_new sz rs = Ok (board s) -> sim_invariant (board s) s ->
  turn_loop fuel s dice tc ts dr = Some (s', dice', (tc', ts', dr')) ->
  sim_invariant (board s) s'.
Proof.
  intros Hnew Hinv. revert s Hnew Hinv tc ts dr.
  induction dice as [|d dice IH]; intros s Hnew Hinv tc ts dr H;
    simpl in H; destruct (has_won s).
  1,3: injection H as <- _ _ _ _; exact Hinv.
  1: discriminate.
  destruct (roll_resolve fuel s d) as [[s1 r]|] eqn:E; [|discriminate].
  pose proof (roll_resolve_invariant _ _ _ _ _ _ _ Hnew Hinv E) as Hinv1.
  assert (Hb1 : board s1 = board s) by (destruct Hinv1; done).
  destruct (die_value r <? DIE_SIZE).
  - injection H as <- _ _ _ _. exact Hinv1.
  - rewrite <- Hb1 in Hnew, Hinv1 |- *. exact (IH _ Hnew Hinv1 _ _ _ H).
Qed.

Lemma turn_invariant sz rs fuel s dice s' dice' :
  Board_new sz rs = Ok (board s) -> sim_invariant (board s) s ->
  turn fuel s dice = Some (s', dice') -> sim_invariant (board s) s'.
Proof.
  intros Hnew Hinv H. unfold turn in H.
  destruct (turn_loop fuel (incr_turn_count s) dice 0 0 [])
    as [[[s1 dice1] [[tc ts] rolls]]|] eqn:E; [|discriminate].
  injection H as <- _.
  assert (Hinv0 : sim_invariant (board (incr_turn_count s)) (incr_turn_count s))
    by exact Hinv.
  change (Board_new sz rs = Ok (board (incr_turn_count s))) in Hnew.
  pose proof (turn_loop_invariant _ _ _ _ _ _ _ _ _ _ _ _ _ Hnew Hinv0 E)
    as (Hb & Hl & Hp & Hlu & Hbc & Hbs).
  destruct (turn_loop_net_le _ _ _ _ _ _ _ _ _ _ _ E) as [Hc Hs].
  destruct Hinv as (_ & _ & _ & _ & Hbc0 & Hbs0).
  destruct (turn_loop_frame _ _ _ _ _ _ _ _ _ _ _ E)
    as [(_ & _ & Hbc1 & Hbs1 & _) _].
  simpl in Hc, Hs, Hbc1, Hbs1.
  split; [exact Hb|]. split; [exact Hl|]. split; [exact Hp|].
  split; [exact Hlu|]. simpl. split; lia.
Qed.

Lemma Sim_new_invariant b : sim_invariant b (Sim_new b).
Proof.
  unfold Sim_new, sim_invariant.
  destruct (calc_lucky_spaces b) as [l u] eqn:E. simpl.
  repeat split; lia.
Qed.

Lemma reachable_invariant sz rs b s :
  Board_new sz rs = Ok b -> rtc sim_step (Sim_new b) s -> sim_invariant b s.
Proof.
  intros Hnew Hr. pose proof (Sim_new_invariant b) as Hinv0.
  remember (Sim_new b) as s0 eqn:E0. clear E0.
  induction Hr as [x|x y z Hxy Hyz IH]; [exact Hinv0|].
  apply IH.
  assert (Hbx : board x = b) by (destruct Hinv0; done).
  rewrite <- Hbx in Hnew, Hinv0 |- *.
  destruct Hxy as [fuel x d y r H|fuel x dice y dice' H].
  - exact (roll_resolve_invariant _ _ _ _ _ _ _ Hnew Hinv0 H).
  - exact (turn_invariant _ _ _ _ _ _ _ Hnew Hinv0 H).
Qed.

(** Consequences for every Sim reachable from [Sim::new]. *)

(** From a board built by [Board::new], every reachable Sim stays on the
    board, keeps its board, and keeps the lucky and unlucky squares computed
    by [calc_lucky_spaces] at creation. *)
Theorem reachable_on_board (sz : nat) (rs : gmap nat nat) (b : Board) (s : Sim) :
  Board_new sz rs = Ok b -> rtc sim_step (Sim_new b) s ->
  position s <= size b /\ board s = b /\
  (lucky_spaces s, unlucky_spaces s) = calc_lucky_spaces b.
Proof.
  intros Hnew Hr.
  destruct (reachable_invariant _ _ _ _ Hnew Hr) as (Hb & Hl & Hp & _).
  split; [exact Hp|]. split; [exact Hb|exact Hl].
Qed.

(** Every reachable Sim has counted at most one lucky or unlucky roll per
    roll. *)
Theorem reachable_luck_le_rolls (sz : nat) (rs : gmap nat nat) (b : Board) (s : Sim) :
  Board_new sz rs = Ok b -> rtc sim_step (Sim_new b) s ->
  lucky_rolls s + unlucky_rolls s <= roll_count s.
Proof.
  intros Hnew Hr.
  destruct (reachable_invariant _ _ _ _ Hnew Hr) as (_ & _ & _ & Hlu & _).
  exact Hlu.
Qed.

(** In every reachable Sim the biggest climb (slide) of one turn is at most
    the total climb (slide) distance. *)
Theorem reachable_biggest_le_total (sz : nat) (rs : gmap nat nat) (b : Board) (s : Sim) :
  Board_new sz rs = Ok b -> rtc sim_step (Sim_new b) s ->
  biggest_climb s <= climb_distance s /\ biggest_slide s <= slide_distance s.
Proof.
  intros Hnew Hr.
  destruct (reachable_invariant _ _ _ _ Hnew Hr) as (_ & _ & _ & _ & Hbc & Hbs).
  split; [exact Hbc|exact Hbs].
Qed.

Lemma ladder_board_new : Board_new 10 {[3 := 7]} = Ok ladder_board.
Proof. vm_compute. reflexivity. Qed.

Lemma reachable_on_board_witness :
  exists s, rtc sim_step (Sim_new ladder_board) s /\ position s = 7 /\
    position s <= size ladder_board.
Proof.
  destruct (turn 10 (Sim_new ladder_board) [3]) as [[s dice']|] eqn:E;
    [|vm_compute in E; discriminate].
  exists s.
  assert (Hr : rtc sim_step (Sim_new ladder_board) s)
    by (apply rtc_once; exact (step_turn _ _ _ _ _ E)).
  split; [exact Hr|]. split; [vm_compute in E; injection E as <- _; reflexivity|].
  exact (proj1 (reachable_on_board _ _ _ _ ladder_board_new Hr)).
Defined.

Lemma reachable_luck_le_rolls_witness :
  exists s, rtc sim_step (Sim_new ladder_board) s /\ roll_count s = 1 /\
    lucky_rolls s + unlucky_rolls s <= roll_count s.
Proof.
  destruct (turn 10 (Sim_new ladder_board) [3]) as [[s dice']|] eqn:E;
    [|vm_compute in E; discriminate].
  exists s.
  assert (Hr : rtc sim_step (Sim_new ladder_board) s)
    by (apply rtc_once; exact (step_turn _ _ _ _ _ E)).
  split; [exact Hr|]. split; [vm_compute in E; injection E as <- _; reflexivity|].
  exact (reachable_luck_le_rolls _ _ _ _ ladder_board_new Hr).
Defined.

Lemma reachable_biggest_le_total_witness :
  exists s, rtc sim_step (Sim_new ladder_board) s /\ biggest_climb s = 4 /\
    biggest_climb s <= climb_distance s /\ biggest_slide s <= slide_distance s.
Proof.
  destruct (turn 10 (Sim_new ladder_board) [3]) as [[s dice']|] eqn:E;
    [|vm_compute in E; discriminate].
  exists s.
  assert (Hr : rtc sim_step (Sim_new ladder_board) s)
    by (apply rtc_once; exact (step_turn _ _ _ _ _ E)).
  split; [exact Hr|]. split; [vm_compute in E; injection E as <- _; reflexivity|].
  exact (reachable_biggest_le_total _ _ _ _ ladder_board_new Hr).
Defined.

(* ------------------------------------------------------------------ *)
(** ** Accounting of a turn *)

Lemma turn_loop_accounting fuel s dice tc ts dr s' dice' tc' ts' dr' :
  turn_loop fuel s dice tc ts dr = Some (s', dice', (tc', ts', dr')) ->
  exists used, dice = used ++ dice' /\
    roll_count s' = roll_count s + length used /\
    (has_won s = false -> used <> []) /\
    tc <= tc' /\ ts <= ts'.
Proof.
  revert s tc ts dr. induction dice as [|d dice IH]; intros s tc ts dr H;
    simpl in H; destruct (has_won s) eqn:Ew.
  1,3: injection H as <- <- <- <- _; exists []; simpl;
       repeat split; [lia|congruence|lia|lia].
  1: discriminate.
  destruct (roll_resolve fuel s d) as [[s1 r]|] eqn:E; [|discriminate].
  destruct (roll_resolve_counts _ _ _ _ _ E) as [Hrc _].
  destruct (die_value r <? DIE_SIZE).
  - injection H as <- <- <- <- _. exists [d]. simpl.
    repeat split; [lia|congruence|lia|lia].
  - destruct (IH _ _ _ _ H) as (used & Hd & Hr & _ & Htc & Hts).
    exists (d :: used). simpl. rewrite Hd.
    repeat split; [lia|congruence|lia|lia].
Qed.

Lemma turn_counts fuel s dice s' dice' :
  turn fuel s dice = Some (s', dice') ->
  exists used, dice = used ++ dice' /\
    turn_count s' = S (turn_count s) /\
    roll_count s' = roll_count s + length used /\
    (has_won s = false -> used <> []) /\
    biggest_climb s <= biggest_climb s' /\ biggest_slide s <= biggest_slide s'.
Proof.
  intros H. unfold turn in H.
  destruct (turn_loop fuel (incr_turn_count s) dice 0 0 [])
    as [[[s1 dice1] [[tc ts] rolls]]|] eqn:E; [|discriminate].
  injection H as <- <-.
  destruct (turn_loop_accounting _ _ _ _ _ _ _ _ _ _ _ E)
    as (used & Hd & Hr & Hne & _ & _).
  destruct (turn_loop_frame _ _ _ _ _ _ _ _ _ _ _ E)
    as [(_ & Htc & Hbc & Hbs & _) _].
  exists used. simpl in Htc, Hbc, Hbs, Hr |- *.
  split; [exact Hd|]. split; [lia|]. split; [exact Hr|].
  split; [exact Hne|]. lia.
Qed.

(** [turn] adds one to [turn_count], adds one to [roll_count] per die value
    it consumes, consumes at least one die value unless the game was already
    won, and never lowers the biggest climb or slide of a turn. *)
Theorem turn_accounting (fuel : nat) (s : Sim) (dice : list nat) (s' : Sim) (dice' : list nat) :
  turn fuel s dice = Some (s', dice') ->
  exists used, dice = used ++ dice' /\
    turn_count s' = S (turn_count s) /\
    roll_count s' = roll_count s + length used /\
    (has_won s = false -> used <> []) /\
    biggest_climb s <= biggest_climb s' /\ biggest_slide s <= biggest_slide s'.
Proof. exact (turn_counts fuel s dice s' dice'). Qed.

Lemma turn_accounting_witness :
  exists s' dice', turn 10 (Sim_new chained_board) [6; 6; 1; 4] = Some (s', dice') /\
    dice' = [4] /\ roll_count s' = 3 /\ turn_count s' = 1.
Proof.
  destruct (turn 10 (Sim_new chained_board) [6; 6; 1; 4]) as [[s' dice']|] eqn:E;
    [|vm_compute in E; discriminate].
  exists s', dice'. split; [reflexivity|].
  destruct (turn_accounting _ _ _ _ _ E) as (used & Hd & Ht & Hr & _).
  pose proof E as E'. vm_compute in E'. injection E' as _ Hd'. subst dice'.
  assert (Hl : length used = 3).
  { apply (f_equal length) in Hd. rewrite length_app in Hd. simpl in Hd. lia. }
  split; [reflexivity|]. rewrite Hr, Hl. split; [reflexivity|exact Ht].
Defined.

(* ------------------------------------------------------------------ *)
(** ** run *)



(* ------------------------------------------------------------------ *)
(** ** MultiSimResult::from_sims *)

Lemma vec_cmp_refl a : vec_cmp a a = Eq.
Proof. induction a as [|x a IH]; simpl; [done|]. by rewrite Nat.compare_refl. Qed.

Lemma vec_cmp_Gt_Lt a b : vec_cmp a b = Gt -> vec_cmp b a = Lt.
Proof.
  revert b. induction a as [|x a IH]; intros [|y b]; simpl; try done.
  destruct (Nat.compare_spec x y) as [<-|Hxy|Hxy].
  - rewrite Nat.compare_refl. apply IH.
  - done.
  - intros _. destruct (Nat.compare_spec y x); [lia|done|lia].
Qed.

Lemma vec_cmp_le_trans a b c :
  vec_cmp a b <> Gt -> vec_cmp b c <> Gt -> vec_cmp a c <> Gt.
Proof.
  revert b c. induction a as [|x a IH]; intros [|y b] [|z c]; simpl; try done.
  destruct (Nat.compare_spec x y) as [Hxy|Hxy|Hxy];
    destruct (Nat.compare_spec x z) as [Hxz|Hxz|Hxz];
    destruct (Nat.compare_spec y z) as [Hyz|Hyz|Hyz];
    try done; try lia.
  apply IH.
Qed.

Lemma fold_max_vec_spec (l : list (list nat)) (x : list nat) :
  let m := fold_left (fun acc y => match vec_cmp acc y with Gt => acc | _ => y end) l x in
  (m = x \/ m ∈ l) /\ vec_cmp x m <> Gt /\ Forall (fun y => vec_cmp y m <> Gt) l.
Proof.
  revert x. induction l as [|y l IH]; intros x; simpl.
  - split; [by left|]. split; [by rewrite vec_cmp_refl|constructor].
  - set (acc := match vec_cmp x y with Gt => x | _ => y end).
    destruct (IH acc) as (Hin & Hle & Hall).
    assert (Hx : vec_cmp x acc <> Gt /\ vec_cmp y acc <> Gt /\ (acc = x \/ acc = y)).
    { subst acc. destruct (vec_cmp x y) eqn:E.
      - rewrite E, vec_cmp_refl. auto.
      - rewrite E, vec_cmp_refl. auto.
      - rewrite vec_cmp_refl, (vec_cmp_Gt_Lt _ _ E). auto. }
    destruct Hx as (Hxa & Hya & Hacc).
    split; [|split].
    + destruct Hin as [->|Hin]; [|right; by right].
      destruct Hacc as [-> | ->]; [by left|right; by left].
    + exact (vec_cmp_le_trans _ _ _ Hxa Hle).
    + constructor; [exact (vec_cmp_le_trans _ _ _ Hya Hle)|exact Hall].
Qed.

Lemma min_avg_max_summarises (l : list nat) :
  l <> [] -> exists mn av mx, min_avg_max l = Some (mn, av, mx) /\ summarises mn av mx l.
Proof.
  intros Hne. destruct l as [|x l]; [done|].
  unfold min_avg_max. rewrite bool_decide_false by done.
  rewrite iter_sum_sum_list. simpl.
  destruct (fold_min_spec l x) as (Hmin & Hmle & Hmall).
  destruct (fold_max_spec l x) as (Hmax & Hxle & Hxall).
  eexists _, _, _. split; [reflexivity|]. split; [|split; [|split]].
  - destruct Hmin as [->|?]; [left|right]; done.
  - destruct Hmax as [->|?]; [left|right]; done.
  - constructor; [lia|].
    rewrite Forall_forall in Hmall, Hxall |- *. intros y Hy.
    specialize (Hmall y Hy). specialize (Hxall y Hy). lia.
  - reflexivity.
Qed.

Lemma iter_max_is_max (l : list nat) :
  l <> [] -> exists m, iter_max l = Some m /\ is_max_of m l.
Proof.
  intros Hne. destruct l as [|x l]; [done|]. simpl.
  destruct (fold_max_spec l x) as (Hmax & Hxle & Hxall).
  eexists. split; [reflexivity|]. split.
  - destruct Hmax as [->|?]; [left|right]; done.
  - constructor; [lia|exact Hxall].
Qed.

Lemma iter_max_vec_spec (l : list (list nat)) :
  l <> [] -> exists m, iter_max_vec l = Some m /\ m ∈ l /\
    Forall (fun y => vec_cmp y m <> Gt) l.
Proof.
  intros Hne. destruct l as [|x l]; [done|]. simpl.
  destruct (fold_max_vec_spec l x) as (Hmax & Hxle & Hxall).
  eexists. split; [reflexivity|]. split.
  - destruct Hmax as [->|?]; [left|right]; done.
  - constructor; [exact Hxle|exact Hxall].
Qed.

(** [from_sims] fails (the [unwrap] of an empty iterator) exactly on an
    empty batch. On a non-empty batch each min/avg/max triple is the
    smallest value, the rounded mean and the largest value of that counter
    over the batch, the biggest turn climb and slide are the largest per-Sim
    values, and the longest turn is a lexicographically greatest
    [longest_turn] of the batch. *)
Theorem from_sims_spec (sims : list Sim) :
  (from_sims sims = None <-> sims = []) /\
  (forall r, from_sims sims = Some r ->
     summarises (min_rolls r) (avg_rolls r) (max_rolls r) (map roll_count sims) /\
     summarises (min_climb r) (avg_climb r) (max_climb r) (map climb_distance sims) /\
     summarises (min_slide r) (avg_slide r) (max_slide r) (map slide_distance sims) /\
     summarises (min_lucky_rolls r) (avg_lucky_rolls r) (max_lucky_rolls r)
       (map lucky_rolls sims) /\
     summarises (min_unlucky_rolls r) (avg_unlucky_rolls r) (max_unlucky_rolls r)
       (map unlucky_rolls sims) /\
     is_max_of (biggest_turn_climb r) (map biggest_climb sims) /\
     is_max_of (biggest_turn_slide r) (map biggest_slide sims) /\
     msr_longest_turn r ∈ map longest_turn sims /\
     Forall (fun s => vec_cmp (longest_turn s) (msr_longest_turn r) <> Gt) sims).
Proof.
  assert (Hall : sims <> [] -> exists r, from_sims sims = Some r /\
     summarises (min_rolls r) (avg_rolls r) (max_rolls r) (map roll_count sims) /\
     summarises (min_climb r) (avg_climb r) (max_climb r) (map climb_distance sims) /\
     summarises (min_slide r) (avg_slide r) (max_slide r) (map slide_distance sims) /\
     summarises (min_lucky_rolls r) (avg_lucky_rolls r) (max_lucky_rolls r)
       (map lucky_rolls sims) /\
     summarises (min_unlucky_rolls r) (avg_unlucky_rolls r) (max_unlucky_rolls r)
       (map unlucky_rolls sims) /\
     is_max_of (biggest_turn_climb r) (map biggest_climb sims) /\
     is_max_of (biggest_turn_slide r) (map biggest_slide sims) /\
     msr_longest_turn r ∈ map longest_turn sims /\
     Forall (fun s => vec_cmp (longest_turn s) (msr_longest_turn r) <> Gt) sims).
  { intros Hne.
    assert (Hm : forall A (f : Sim -> A), map f sims <> []).
    { intros A f. destruct sims; done. }
    destruct (min_avg_max_summarises _ (Hm _ roll_count)) as (mnr & avr & mxr & Er & Sr).
    destruct (min_avg_max_summarises _ (Hm _ climb_distance)) as (mnc & avc & mxc & Ec & Sc).
    destruct (min_avg_max_summarises _ (Hm _ slide_distance)) as (mns & avs & mxs & Es & Ss).
    destruct (min_avg_max_summarises _ (Hm _ lucky_rolls)) as (mnl & avl & mxl & El & Sl).
    destruct (min_avg_max_summarises _ (Hm _ unlucky_rolls)) as (mnu & avu & mxu & Eu & Su).
    destruct (iter_max_is_max _ (Hm _ biggest_climb)) as (btc & Ebc & Sbc).
    destruct (iter_max_is_max _ (Hm _ biggest_slide)) as (bts & Ebs & Sbs).
    destruct (iter_max_vec_spec _ (Hm _ longest_turn)) as (lt & Elt & Hin & Hlt).
    unfold from_sims. rewrite Er, Ec, Es, El, Eu, Ebc, Ebs, Elt.
    eexists. split; [reflexivity|].
    do 8 (split; [assumption|]).
    rewrite Forall_forall in Hlt. apply Forall_forall. intros s Hs.
    apply Hlt. apply (list_elem_of_fmap_2 longest_turn). exact Hs. }
  split.
  - split; [|intros ->; reflexivity].
    intros H. destruct sims as [|s sims]; [done|].
    destruct (Hall ltac:(done)) as (r & Hr & _). congruence.
  - intros r H. destruct sims as [|s sims]; [discriminate|].
    destruct (Hall ltac:(done)) as (r' & Hr & Hs). rewrite H in Hr.
    injection Hr as <-. exact Hs.
Qed.

Lemma from_sims_spec_witness :
  exists r, from_sims [Sim_new canon_board; set_position (Sim_new chained_board) 93] =
    Some r /\ max_rolls r = 0 /\ biggest_turn_climb r = 0 /\
    Forall (fun s => vec_cmp (longest_turn s) (msr_longest_turn r) <> Gt)
      [Sim_new canon_board; set_position (Sim_new chained_board) 93].
Proof.
  destruct (from_sims [Sim_new canon_board; set_position (Sim_new chained_board) 93])
    as [r|] eqn:E; [|vm_compute in E; discriminate].
  exists r. split; [reflexivity|].
  destruct (proj2 (from_sims_spec _) r E) as (_ & _ & _ & _ & _ & _ & _ & _ & Hlt).
  pose proof E as E'. vm_compute in E'. injection E' as <-.
  split; [reflexivity|]. split; [reflexivity|exact Hlt].
Defined.
